(** * SDSS/BOSS notebook: row filter, co-addition, labels and the SVM split

    A shallow embedding of the computational cells of
    [day1/notebooks/svm_SDSS.ipynb]:

    - the colour cut [g_r], [r_i], [color_cut] (cells at lines 263-305),
    - the masked read [color_cut_flux] and the co-added spectrum
      [color_cut_coadd] (lines 346-360),
    - the labels [y], the features [X], the split at [t_size] and the
      calls into the classifier (lines 386-437).

    Magnitudes and fluxes are IEEE floating-point numbers, taken at binary64
    (numpy's default, Rocq's primitive floats); the literals [0.45], [0.55],
    [0.], [0.4] are read the way Python reads them, as the nearest binary64
    value.  The array operations are written once for an arbitrary entry
    type with its zero and its addition, and used at binary64.  Python
    exceptions are values of [exn]; [len] and [range] are the built-ins. *)

From Stdlib Require Import Floats ZArith.
From stdpp Require Import base list sorting strings gmap.

Set Warnings "-inexact-float".

(** ** Python exceptions and fallible results *)

Inductive exn : Type :=
  | NameError (name : string)   (* a global name that is not bound *)
  | KeyError (key : string)     (* a table without the requested column *)
  | IndexError                  (* an index or a mask that does not fit a numpy array *)
  | TypeError                   (* a value of the wrong kind (TypeError, AttributeError),
                                   or a mask that does not fit an HDF5 dataset *)
  | NotFittedError.             (* [predict] on an estimator that was never fitted *)

Inductive result (A : Type) : Type :=
  | Ok (a : A)
  | Raise (e : exn).
Arguments Ok {A} a.
Arguments Raise {A} e.

#[global] Instance result_ret : MRet result := @Ok.
#[global] Instance result_bind : MBind result := λ A B f m,
  match m with
  | Ok a => f a
  | Raise e => Raise e
  end.

(** ** Two-dimensional arrays

    A 2-D array of shape [(R, P)] keeps its number of columns even when it
    has no row, as numpy does for shape [(0, P)]. *)

Record matrix (A : Type) : Type := Matrix { ncols : nat; rows : list (list A) }.
Arguments Matrix {A} ncols rows.
Arguments ncols {A} m.
Arguments rows {A} m.

Definition nrows {A} (m : matrix A) : nat := length (rows m).

Definition wf_matrix {A} (m : matrix A) : Prop :=
  Forall (λ r, length r = ncols m) (rows m).

(** Boolean-mask selection [a[mask]] on the first axis: the items at the
    positions where the mask is true, in their original order. *)
Fixpoint select {A} (mask : list bool) (l : list A) : list A :=
  match mask, l with
  | b :: mask', x :: l' => if b then x :: select mask' l' else select mask' l'
  | _, _ => []
  end.

(** [np.flatnonzero(mask)]: the positions of the true entries, increasing. *)
Fixpoint true_indices_from (k : nat) (mask : list bool) : list nat :=
  match mask with
  | [] => []
  | b :: mask' =>
      if b then k :: true_indices_from (S k) mask' else true_indices_from (S k) mask'
  end.
Definition true_indices (mask : list bool) : list nat := true_indices_from 0 mask.

(** [mask.sum()]: the number of true entries. *)
Definition count_true (mask : list bool) : nat := length (filter (λ b, b = true) mask).

(** [color_cut_flux = f['flux'][color_cut, :]] (line 348): the rows of the
    dataset where the mask is true, every column kept.  The read of an HDF5
    dataset with a mask whose length is not the number of rows raises a
    TypeError. *)
Definition color_cut_flux {A} (flux : matrix A) (color_cut : list bool) : result (matrix A) :=
  if decide (length color_cut = nrows flux)
  then Ok (Matrix (ncols flux) (select color_cut (rows flux)))
  else Raise TypeError.

(** Elementwise [A | B], and two masks with no true position in common. *)
Definition mask_or (a b : list bool) : list bool := zip_with orb a b.
Definition mask_disjoint (a b : list bool) : Prop :=
  ∀ i, ¬ (a !! i = Some true ∧ b !! i = Some true).

(** ** Co-addition, for any entry type with a zero and an addition *)

Section Coadd.
Context {T : Type} (zero : T) (add : T → T → T).

(** Elementwise sum of two vectors. *)
Definition vadd (u v : list T) : list T := zip_with add u v.

(** [a[i]] for an index inside [a]. *)
Definition at0 (a : list T) (i : nat) : T := default zero (a !! i).

(** The first [k] blocks of eight consecutive entries of [a]. *)
Fixpoint blocks8 (k : nat) (a : list T) : list (list T) :=
  match k with
  | 0 => []
  | S k' => take 8 a :: blocks8 k' (drop 8 a)
  end.

(** numpy's sum of a contiguous run of 8 to 128 entries: eight accumulators
    [r[0..7]] start as the first eight entries, every further full block of
    eight is added to them entry by entry, the accumulators are added as
    [((r0+r1)+(r2+r3))+((r4+r5)+(r6+r7))], and the entries after the last
    full block are added one by one. *)
Definition pairwise_block (a : list T) : T :=
  let k := length a / 8 in
  let r := foldl vadd (take 8 a) (blocks8 (k - 1) (drop 8 a)) in
  let res := add (add (add (at0 r 0) (at0 r 1)) (add (at0 r 2) (at0 r 3)))
                 (add (add (at0 r 4) (at0 r 5)) (add (at0 r 6) (at0 r 7))) in
  foldl add res (drop (8 * k) a).

(** numpy's pairwise sum of a contiguous run: fewer than 8 entries are added
    one by one from zero; up to 128 entries are summed as one block; a
    longer run is cut at half its length, rounded down to a multiple of 8,
    and the sums of the two parts are added.  [depth] bounds the number of
    cuts; the length of the run, used by [pairwise_sum], is never used up
    (see [pairwise_sum_cut]). *)
Fixpoint pairwise_sum_within (depth : nat) (a : list T) : T :=
  if decide (length a < 8) then foldl add zero a
  else if decide (length a ≤ 128) then pairwise_block a
  else match depth with
       | 0 => pairwise_block a
       | S depth' =>
           let n2 := length a / 2 - (length a / 2) mod 8 in
           add (pairwise_sum_within depth' (take n2 a))
               (pairwise_sum_within depth' (drop n2 a))
       end.
Definition pairwise_sum (a : list T) : T := pairwise_sum_within (length a) a.

(** [np.sum(a, axis=0)] (numpy 1.13, the notebook's): the result starts as
    the zero vector of length [ncols a].  With two or more columns the rows
    are added to it one after the other, in row order.  With a single
    column the summed axis is contiguous in memory and numpy adds the
    pairwise sum of the column to the zero. *)
Definition np_sum_axis0 (a : matrix T) : list T :=
  match ncols a, rows a with
  | 1, _ :: _ => [add zero (pairwise_sum (concat (rows a)))]
  | _, _ => foldl vadd (replicate (ncols a) zero) (rows a)
  end.

(** [color_cut_coadd = np.sum(color_cut_flux, axis=0)] (line 360), from the
    dataset and the mask. *)
Definition color_cut_coadd (flux : matrix T) (color_cut : list bool) : result (list T) :=
  selected ← color_cut_flux flux color_cut;
  mret (np_sum_axis0 selected).

(** The contract in the words of the specification: entry [j] of the
    co-added spectrum is the sum, over the rows [i] whose mask bit is true,
    of [flux[i][j]]. *)
Definition entry (flux : matrix T) (i j : nat) : T :=
  default zero (rows flux !! i ≫= (.!! j)).
Definition coadd_entry_spec (flux : matrix T) (mask : list bool) (j : nat) : T :=
  foldl (λ acc i, if mask !! i is Some true then add acc (entry flux i j) else acc)
        zero (seq 0 (nrows flux)).

(** Pixel [j] of a list of rows. *)
Definition column_of (j : nat) (rs : list (list T)) : list T :=
  (λ r, at0 r j) <$> rs.

(** [adds xs s]: [s] is a sum of exactly the entries [xs], each entering
    once, in some order and some bracketing of the additions; zeros may be
    added on the way. *)
Inductive adds : list T → T → Prop :=
  | adds_nil : adds [] zero
  | adds_one x : adds [x] x
  | adds_app xs ys a b : adds xs a → adds ys b → adds (xs ++ ys) (add a b)
  | adds_perm xs ys a : xs ≡ₚ ys → adds xs a → adds ys a.

(** Exact sums.  [val] reads an entry as an integer and [ok] holds of the
    entries it reads faithfully; the addition is exact on two such entries
    whose magnitudes add up to at most [bound].  [total] is the integer sum
    of a list of entries and [weight] the sum of their magnitudes. *)
Definition total (val : T → Z) (xs : list T) : Z :=
  foldr (λ x t, val x + t)%Z 0%Z xs.
Definition weight (val : T → Z) (xs : list T) : Z :=
  foldr (λ x w, Z.abs (val x) + w)%Z 0%Z xs.
Record exact_sums (ok : T → Prop) (val : T → Z) (bound : Z) : Prop := ExactSums {
  exact_zero : ok zero ∧ val zero = 0%Z;
  exact_inj : ∀ x z, ok x → ok z → val x = val z → x = z;
  exact_add : ∀ x z, ok x → ok z → (Z.abs (val x) + Z.abs (val z) ≤ bound)%Z →
              ok (add x z) ∧ val (add x z) = (val x + val z)%Z
}.

End Coadd.

(** The notebook's instance: binary64 entries. *)
Definition coadd (flux : matrix float) (mask : list bool) : result (list float) :=
  color_cut_coadd 0%float PrimFloat.add flux mask.

(** The integer part of a binary64 number, and a check, by computation, that
    the binary64 addition is exact on a finite set of numbers up to a
    bound. *)
Definition float_val (x : float) : Z :=
  match Prim2SF x with
  | S754_finite s m e => if s then (- Z.shiftl (Zpos m) e)%Z else Z.shiftl (Zpos m) e
  | _ => 0%Z
  end.
Definition float_in (dom : list float) (x : float) : bool :=
  existsb (PrimFloat.Leibniz.eqb x) dom.
Definition exact_on (dom : list float) (bound : Z) : bool :=
  float_in dom 0%float && (float_val 0 =? 0)%Z
  && forallb (λ x, forallb (λ z,
       implb (float_val x =? float_val z)%Z (PrimFloat.Leibniz.eqb x z)
       && implb (Z.abs (float_val x) + Z.abs (float_val z) <=? bound)%Z
                (float_in dom (x + z)%float
                 && (float_val (x + z) =? float_val x + float_val z)%Z)) dom) dom.

(** The integers from [-n] to [n] as binary64 numbers. *)
Definition float_of_Z (z : Z) : float :=
  if (z <? 0)%Z then (- PrimFloat.of_uint63 (Uint63.of_Z (- z)))%float
  else PrimFloat.of_uint63 (Uint63.of_Z z).
Definition integers_upto (n : Z) : list float := float_of_Z <$> seqZ (- n) (2 * n + 1).


(** ** Catalog tables

    A table has a number of rows and named columns; a column holds strings
    (CLASS), numbers (Z, Z_ERR), integers (the labels) or one fixed-width
    vector per row (PSFMAG, EXTINCTION). *)

Inductive column : Type :=
  | StrColumn (v : list string)
  | FloatColumn (v : list float)
  | IntColumn (v : list Z)
  | VecColumn (v : matrix float).

Inductive item : Type :=
  | IStr (s : string)
  | IFloat (x : float)
  | IInt (n : Z)
  | IRow (r : list float).

Record table : Type := Table { table_len : nat; columns : gmap string column }.

Definition column_len (c : column) : nat :=
  match c with
  | StrColumn v => length v
  | FloatColumn v => length v
  | IntColumn v => length v
  | VecColumn m => nrows m
  end.

Definition wf_table (t : table) : Prop :=
  ∀ name c, columns t !! name = Some c → column_len c = table_len t.

(** [t[name]]. *)
Definition getitem (t : table) (name : string) : result column :=
  match columns t !! name with
  | Some c => Ok c
  | None => Raise (KeyError name)
  end.

(** [c[i]] for a row index [i] counted from 0. *)
Definition column_item (c : column) (i : nat) : result item :=
  let get {A} (f : A → item) (v : list A) : result item :=
    match v !! i with Some a => Ok (f a) | None => Raise IndexError end in
  match c with
  | StrColumn v => get IStr v
  | FloatColumn v => get IFloat v
  | IntColumn v => get IInt v
  | VecColumn m => get IRow (rows m)
  end.

(** [item == s] for a string [s]: only an equal string compares equal. *)
Definition item_eq_str (x : item) (s : string) : bool :=
  match x with
  | IStr s' => bool_decide (s' = s)
  | _ => false
  end.

(** Python slices [l[:stop]] and [l[start:]] for an integer bound: a
    negative bound counts from the end, and bounds are clipped to the
    length. *)
Definition slice_bound (n : nat) (i : Z) : nat :=
  if decide (i < 0)%Z then Z.to_nat (Z.of_nat n + i) else Z.to_nat i `min` n.
Definition slice_to {A} (stop : Z) (l : list A) : list A :=
  take (slice_bound (length l) stop) l.
Definition slice_from {A} (start : Z) (l : list A) : list A :=
  drop (slice_bound (length l) start) l.

Definition column_slice (sl : ∀ A, list A → list A) (c : column) : column :=
  match c with
  | StrColumn v => StrColumn (sl _ v)
  | FloatColumn v => FloatColumn (sl _ v)
  | IntColumn v => IntColumn (sl _ v)
  | VecColumn m => VecColumn (Matrix (ncols m) (sl _ (rows m)))
  end.
Definition column_slice_to (stop : Z) : column → column :=
  column_slice (λ A, slice_to stop).
Definition column_slice_from (start : Z) : column → column :=
  column_slice (λ A, slice_from start).

(** ** Row filter: the colour cut *)

(** [a[:, k]]. *)
Definition getcol {A} (a : matrix A) (k : nat) : result (list A) :=
  if decide (k < ncols a)
  then mapM (λ r, match r !! k with Some x => Ok x | None => Raise IndexError end) (rows a)
  else Raise IndexError.

(** [photoPos['PSFMAG'][:, k]]; a column that is not two-dimensional has no
    second axis to index. *)
Definition psfmag (photoPos : table) (k : nat) : result (list float) :=
  c ← getitem photoPos "PSFMAG";
  match c with
  | VecColumn m => getcol m k
  | _ => Raise IndexError
  end.

(** Elementwise difference of two one-dimensional arrays. *)
Definition vsub (u v : list float) : list float := zip_with PrimFloat.sub u v.

(** Lines 263-264. *)
Definition g_r (photoPos : table) : result (list float) :=
  g ← psfmag photoPos 1; r ← psfmag photoPos 2; mret (vsub g r).
Definition r_i (photoPos : table) : result (list float) :=
  r ← psfmag photoPos 2; i ← psfmag photoPos 3; mret (vsub r i).

(** The comparisons [v > c] and [v < c] of IEEE binary64. *)
Definition np_greater (v c : float) : bool := (c <? v)%float.
Definition np_less (v c : float) : bool := (v <? c)%float.
Definition mask_and (a b : list bool) : list bool := zip_with andb a b.

(** Line 305:
    [color_cut = (g_r > 0.45) & (g_r < 0.55) & (r_i > 0.) & (r_i < 0.4)]. *)
Definition color_cut_of (g_r r_i : list float) : list bool :=
  mask_and
    (mask_and
       (mask_and ((λ v, np_greater v 0.45%float) <$> g_r) ((λ v, np_less v 0.55%float) <$> g_r))
       ((λ v, np_greater v 0%float) <$> r_i))
    ((λ v, np_less v 0.4%float) <$> r_i).

Definition color_cut (photoPos : table) : result (list bool) :=
  g ← g_r photoPos; r ← r_i photoPos; mret (color_cut_of g r).

(** The cut on the row with magnitudes [g], [r], [i] at the positions 1, 2,
    3 of the row [u g r i z]. *)
Definition row_cut (g r i : float) : bool :=
  np_greater (g - r) 0.45 && np_less (g - r) 0.55
  && np_greater (r - i) 0 && np_less (r - i) 0.4.

(** ** Labels and features (lines 397-399) *)

(** [[1 if specObj['CLASS'][i] == positive else 0 for i in range(len(specObj))]];
    the notebook's positive class is ['STAR']. *)
Definition label_at (positive : string) (specObj : table) (i : nat) : result Z :=
  c ← getitem specObj "CLASS";
  x ← column_item c i;
  mret (if item_eq_str x positive then 1%Z else 0%Z).
Definition extract_labels (positive : string) (specObj : table) : result (list Z) :=
  mapM (label_at positive specObj) (seq 0 (table_len specObj)).
Definition y (specObj : table) : result (list Z) := extract_labels "STAR" specObj.

(** [X = photoPos['PSFMAG']]. *)
Definition X (photoPos : table) : result column := getitem photoPos "PSFMAG".

(** Line 410. *)
Definition t_size : Z := 70000.

(** ** The notebook's global namespace and the classifier cells

    The classifier is an external capability: [svm_fit] trains on a feature
    array and a label array, [svm_predict] labels the rows of a feature
    array, and [np_sum_ne a b] is numpy's [np.sum(a != b)]. *)

Section Classifier.
Context {Model : Type}.
Context (svm_fit : column → column → result Model).
Context (svm_predict : Model → column → result (list Z)).
Context (np_sum_ne : column → column → result Z).

Inductive value : Type :=
  | VInt (n : Z)
  | VTable (t : table)
  | VColumn (c : column)
  | VEstimator (fitted : option Model)   (* [svm.SVC()], before or after [fit] *)
  | VOpaque (name : string).             (* a module or a class: np, svm, Column *)

(** A cell runs in the global namespace and may raise. *)
Definition py (A : Type) : Type := gmap string value → result (A * gmap string value).

#[global] Instance py_ret : MRet py := λ A a ns, Ok (a, ns).
#[global] Instance py_bind : MBind py := λ A B f m ns,
  match m ns with
  | Ok (a, ns') => f a ns'
  | Raise e => Raise e
  end.

Definition load (name : string) : py value := λ ns,
  match ns !! name with
  | Some v => Ok (v, ns)
  | None => Raise (NameError name)
  end.
Definition store (name : string) (v : value) : py unit := λ ns,
  Ok (tt, <[name := v]> ns).
Definition lift {A} (r : result A) : py A := λ ns,
  match r with
  | Ok a => Ok (a, ns)
  | Raise e => Raise e
  end.

Definition as_int (v : value) : result Z :=
  match v with VInt n => Ok n | _ => Raise TypeError end.
Definition as_table (v : value) : result table :=
  match v with VTable t => Ok t | _ => Raise TypeError end.
Definition as_column (v : value) : result column :=
  match v with VColumn c => Ok c | _ => Raise TypeError end.
Definition as_estimator (v : value) : result (option Model) :=
  match v with VEstimator m => Ok m | _ => Raise TypeError end.

(** [name[:bound]] and [name[bound:]]: both names are read, left to right,
    before the array is sliced. *)
Definition load_slice_to (name bound : string) : py column :=
  v ← load name; t ← load bound;
  c ← lift (as_column v); n ← lift (as_int t);
  mret (column_slice_to n c).
Definition load_slice_from (name bound : string) : py column :=
  v ← load name; t ← load bound;
  c ← lift (as_column v); n ← lift (as_int t);
  mret (column_slice_from n c).

(** Lines 386-388: [from sklearn import svm; clf = svm.SVC()]. *)
Definition cell_svc : py unit :=
  store "svm" (VOpaque "sklearn.svm");;
  _ ← load "svm";
  store "clf" (VEstimator None).

(** Lines 397-399. *)
Definition cell_labels_features : py unit :=
  _ ← load "Column";
  s ← load "specObj"; specObj ← lift (as_table s);
  labels ← lift (y specObj);
  store "y" (VColumn (IntColumn labels));;
  p ← load "photoPos"; photoPos ← lift (as_table p);
  features ← lift (X photoPos);
  store "X" (VColumn features).

(** Line 410: [t_size = 70000]. *)
Definition cell_t_size : py unit := store "t_size" (VInt t_size).

(** Line 419: [clf.fit(X[:t_size], y[:t_size])]; the estimator object is
    updated in place. *)
Definition cell_fit : py unit :=
  c ← load "clf"; _ ← lift (as_estimator c);
  X_train ← load_slice_to "X" "t_size";
  y_train ← load_slice_to "y" "t_size";
  model ← lift (svm_fit X_train y_train);
  store "clf" (VEstimator (Some model)).

(** Line 428: [predict = clf.predict(x[t_size:])]. *)
Definition cell_predict : py unit :=
  c ← load "clf"; fitted ← lift (as_estimator c);
  x_test ← load_slice_from "x" "t_size";
  labels ← lift (match fitted with
                 | Some model => svm_predict model x_test
                 | None => Raise NotFittedError
                 end);
  store "predict" (VColumn (IntColumn labels)).

(** Line 437: [non_matching = np.sum(predict != y[t_size:])]. *)
Definition cell_non_matching : py unit :=
  _ ← load "np";
  p ← load "predict"; predicted ← lift (as_column p);
  y_test ← load_slice_from "y" "t_size";
  n ← lift (np_sum_ne predicted y_test);
  store "non_matching" (VInt n).

(** The cells from the construction of the classifier up to the fit, and
    the whole classifier part, run top to bottom. *)
Definition cells_before_predict : py unit :=
  cell_svc;; cell_labels_features;; cell_t_size;; cell_fit.
Definition pipeline : py unit :=
  cells_before_predict;; cell_predict;; cell_non_matching.

(** A cell keeps a name when running it to its end leaves the binding of
    that name as it was. *)
Definition keeps (name : string) {A} (m : py A) : Prop :=
  ∀ ns a ns', m ns = Ok (a, ns') → ns' !! name = ns !! name.

End Classifier.

(** The global names bound by the cells above the classifier part: the
    imports, the loop and [with] variables and every assignment target of
    lines 32-360. *)
Definition globals_before_classifier : gset string :=
  list_to_set
    ["path"; "Table"; "Column"; "h5py"; "plt"; "np"; "data_path"; "f"; "wave";
     "flux"; "ivar"; "specObj"; "spec_class"; "spec_classes"; "cls"; "bins";
     "photoPos"; "g_r"; "r_i"; "fig"; "axes"; "i"; "ax"; "color_cut";
     "color_cut_flux"; "color_cut_ivar"; "color_cut_coadd"].

(** ** The exploratory cells above the colour cut *)

(** Line 111: [1/np.sqrt(ivar)], the uncertainty drawn over the flux. *)
Definition inv_sqrt_ivar (ivar : list float) : list float :=
  (λ v, 1 / sqrt v)%float <$> ivar.

(** [a[mask]] on a one-dimensional array (lines 193, 277, 317-321). *)
Definition getitem_mask {A} (a : list A) (mask : list bool) : result (list A) :=
  if decide (length mask = length a) then Ok (select mask a) else Raise IndexError.

(** [spec_class == cls], elementwise on an array of strings. *)
Definition eq_mask (cls : string) (spec_class : list string) : list bool :=
  (λ c, bool_decide (c = cls)) <$> spec_class.

(** [np.unique]: the distinct values, sorted; strings are ordered character
    by character. *)
Definition string_le (a b : string) : Prop := String.leb a b = true.
#[global] Instance string_le_dec : RelDecision string_le :=
  λ a b, decide (String.leb a b = true).
Definition np_unique (a : list string) : list string :=
  merge_sort string_le (remove_dups a).

(** Lines 172-174: the class names and the counts that are printed,
    [(cls, (spec_class == cls).sum())] for [cls] in [spec_classes]. *)
Definition spec_classes (spec_class : list string) : list string := np_unique spec_class.
Definition class_counts (spec_class : list string) : list (string * nat) :=
  (λ cls, (cls, count_true (eq_mask cls spec_class))) <$> spec_classes spec_class.

(** * Facts *)

(** ** Selection by a mask *)

Lemma select_replicate_false {A} n (l : list A) : select (replicate n false) l = [].
Proof. revert l. induction n as [|n IH]; intros [|x l]; simpl; auto. Qed.

Lemma select_no_true {A} (mask : list bool) (l : list A) :
  count_true mask = 0 → select mask l = [].
Proof.
  unfold count_true. revert l.
  induction mask as [|b mask IH]; intros [|x l]; simpl; auto.
  destruct b; [rewrite filter_cons_True by done; simpl; lia |].
  rewrite filter_cons_False by done. auto.
Qed.

Lemma length_select {A} (mask : list bool) (l : list A) :
  length mask = length l → length (select mask l) = count_true mask.
Proof.
  unfold count_true. revert l.
  induction mask as [|b mask IH]; intros [|x l] Hlen; simplify_eq/=; auto.
  destruct b.
  - rewrite filter_cons_True by done. simpl. auto.
  - rewrite filter_cons_False by done. auto.
Qed.

Lemma true_indices_from_shift k mask :
  true_indices_from (S k) mask = S <$> true_indices_from k mask.
Proof.
  revert k. induction mask as [|[] mask IH]; intros k; simpl; auto.
  by rewrite IH.
Qed.

Lemma select_true_indices {A} (mask : list bool) (l : list A) :
  length mask = length l →
  Some <$> select mask l = (λ i, l !! i) <$> true_indices mask.
Proof.
  unfold true_indices. revert l.
  induction mask as [|b mask IH]; intros [|x l] Hlen; simplify_eq/=; auto.
  rewrite true_indices_from_shift.
  destruct b; simpl; rewrite <- list_fmap_compose; simpl; rewrite IH by done; done.
Qed.

Lemma elem_of_true_indices_from k mask i :
  i ∈ true_indices_from k mask ↔ k ≤ i ∧ mask !! (i - k) = Some true.
Proof.
  revert k. induction mask as [|b mask IH]; intros k; simpl.
  - rewrite elem_of_nil. split; [done|]. intros [_ Hi]. by rewrite lookup_nil in Hi.
  - assert (Hstep : k ≤ i → i ≠ k → (b :: mask) !! (i - k) = mask !! (i - S k)).
    { intros. replace (i - k) with (S (i - S k)) by lia. done. }
    destruct b; [rewrite elem_of_cons|]; rewrite IH; split.
    + intros [->|[? ?]]; [rewrite Nat.sub_diag; auto|].
      split; [lia|]. rewrite Hstep by lia. done.
    + intros [? Hi]. destruct (decide (i = k)) as [|Hne]; [auto|right].
      split; [lia|]. rewrite <- Hstep by lia. done.
    + intros [? ?]. split; [lia|]. rewrite Hstep by lia. done.
    + intros [? Hi]. destruct (decide (i = k)) as [->|Hne].
      * rewrite Nat.sub_diag in Hi. done.
      * split; [lia|]. rewrite <- Hstep by lia. done.
Qed.

Lemma true_indices_from_increasing k mask :
  StronglySorted lt (true_indices_from k mask) ∧ Forall (le k) (true_indices_from k mask).
Proof.
  revert k. induction mask as [|b mask IH]; intros k; simpl.
  - split; constructor.
  - destruct (IH (S k)) as [Hs Hf]. destruct b.
    + split; [constructor; [done|]|constructor; [done|]];
        eapply Forall_impl; eauto; simpl; lia.
    + split; [done|]. eapply Forall_impl; eauto; simpl; lia.
Qed.

Lemma color_cut_flux_eq {A} (flux : matrix A) (mask : list bool) :
  length mask = nrows flux →
  color_cut_flux flux mask = Ok (Matrix (ncols flux) (select mask (rows flux))).
Proof. intros Hlen. unfold color_cut_flux. by rewrite decide_True. Qed.

Lemma Forall_select {A} (P : A → Prop) (mask : list bool) (l : list A) :
  Forall P l → Forall P (select mask l).
Proof.
  intros Hl. revert mask. induction Hl as [|x l Hx Hl IH]; intros [|[] mask]; simpl; auto.
Qed.

(** ** Co-addition *)

Section CoaddFacts.
Context {T : Type} (zero : T) (add : T → T → T).
#[local] Arguments Nat.div : simpl never.
#[local] Arguments Nat.modulo : simpl never.

Lemma length_foldl_vadd P (acc : list T) (rs : list (list T)) :
  length acc = P → Forall (λ r, length r = P) rs →
  length (foldl (vadd add) acc rs) = P.
Proof.
  intros Hacc Hrs. revert acc Hacc.
  induction Hrs as [|r rs Hr Hrs IH]; intros acc Hacc; simpl; [done|].
  apply IH. unfold vadd. rewrite length_zip_with. lia.
Qed.

(** Entry [j] of a sum of rows is the sum of the entries [j] of the rows. *)
Lemma lookup_foldl_vadd j (acc : list T) (rs : list (list T)) a :
  Forall (λ r, j < length r) rs → acc !! j = Some a →
  foldl (vadd add) acc rs !! j
  = Some (foldl (λ s r, add s (default zero (r !! j))) a rs).
Proof.
  intros Hrs. revert acc a.
  induction Hrs as [|r rs Hr Hrs IH]; intros acc a Hacc; simpl; [done|].
  apply IH. unfold vadd. rewrite lookup_zip_with, Hacc. simpl.
  destruct (lookup_lt_is_Some_2 r j Hr) as [x ->]. done.
Qed.

(** Summing the selected rows is summing over the row indices and skipping
    those whose mask bit is not set. *)
Lemma foldl_select_seq j (rs : list (list T)) (mask : list bool) a :
  length mask = length rs →
  foldl (λ s r, add s (default zero (r !! j))) a (select mask rs)
  = foldl (λ acc i, if mask !! i is Some true
                    then add acc (default zero (rs !! i ≫= (.!! j))) else acc)
          a (seq 0 (length rs)).
Proof.
  revert mask a.
  induction rs as [|r rs IH]; intros [|b mask] a Hlen; simplify_eq/=; [done|].
  rewrite <- fmap_S_seq, foldl_fmap. simpl.
  destruct b; simpl; by rewrite IH.
Qed.

Lemma foldl_column_of j (rs : list (list T)) a :
  foldl (λ s r, add s (default zero (r !! j))) a rs
  = foldl add a (column_of zero j rs).
Proof. unfold column_of. by rewrite foldl_fmap. Qed.

(** *** Sums of exactly the given entries *)

Lemma foldl_adds (xs ys : list T) (s : T) :
  adds zero add xs s → adds zero add (xs ++ ys) (foldl add s ys).
Proof.
  revert xs s. induction ys as [|y ys IH]; intros xs s Hs; simpl.
  - by rewrite app_nil_r.
  - rewrite cons_middle, (assoc_L (++) xs [y] ys). apply IH.
    apply adds_app; [done|apply adds_one].
Qed.

Lemma adds_eq (xs ys : list T) (s : T) :
  xs = ys → adds zero add xs s → adds zero add ys s.
Proof. by intros ->. Qed.

Lemma concat_zip_with_app (ls ms : list (list T)) :
  length ls = length ms →
  concat (zip_with (++) ls ms) ≡ₚ concat ls ++ concat ms.
Proof.
  revert ms. induction ls as [|l ls IH]; intros [|m ms] Hlen; simplify_eq/=; [done|].
  rewrite IH by done. rewrite <- !(assoc_L (++)). f_equiv.
  apply Permutation_app_swap_app.
Qed.

(** The eight lanes of a list of blocks of eight. *)
Lemma lanes_permutation (cs : list (list T)) :
  Forall (λ c, length c = 8) cs →
  concat cs ≡ₚ concat ((λ j, column_of zero j cs) <$> seq 0 8).
Proof.
  induction 1 as [|c cs Hc Hcs IH]; [done|].
  change ((λ j, column_of zero j (c :: cs)) <$> seq 0 8)
    with (zip_with (++) ((λ j, [at0 zero c j]) <$> seq 0 8)
                   ((λ j, column_of zero j cs) <$> seq 0 8)).
  rewrite concat_zip_with_app by done. simpl concat at 1.
  rewrite <- IH. f_equiv.
  do 9 (destruct c as [|? c]; simplify_eq/=). done.
Qed.

Lemma length_blocks8 (k : nat) (a : list T) :
  8 * k ≤ length a →
  Forall (λ c, length c = 8) (blocks8 k a) ∧
  concat (blocks8 k a) = take (8 * k) a.
Proof.
  revert a. induction k as [|k IH]; intros a Hk; simpl blocks8.
  - split; [constructor|]. by rewrite Nat.mul_0_r.
  - destruct (IH (drop 8 a)) as [Hf Hc]; [rewrite length_drop; lia|].
    split; [constructor; [rewrite length_take; lia|done]|].
    simpl concat. rewrite Hc.
    replace (8 * S k) with (8 + 8 * k) by lia.
    rewrite <- (take_drop 8 (take (8 + 8 * k) a)).
    rewrite take_take, Nat.min_l by lia. f_equal.
    rewrite take_drop_commute. done.
Qed.

Lemma pairwise_block_adds (a : list T) :
  8 ≤ length a → adds zero add a (pairwise_block zero add a).
Proof.
  intros Hn. unfold pairwise_block.
  set (k := length a / 8).
  assert (Hk : 1 ≤ k ∧ 8 * k ≤ length a).
  { subst k. split; [by apply Nat.div_le_lower_bound|].
    apply Nat.Div0.mul_div_le. }
  destruct (length_blocks8 (k - 1) (drop 8 a)) as [Hlen Hcat];
    [rewrite length_drop; lia|].
  set (c0 := take 8 a) in *. set (cs := blocks8 (k - 1) (drop 8 a)) in *.
  assert (Hc0 : length c0 = 8) by (subst c0; rewrite length_take; lia).
  assert (Ha : a = concat (c0 :: cs) ++ drop (8 * k) a).
  { simpl concat. rewrite Hcat. subst c0.
    rewrite <- (take_drop 8 a) at 1. rewrite <- (assoc_L (++)). f_equal.
    rewrite <- (take_drop (8 * (k - 1)) (drop 8 a)) at 1. f_equal.
    rewrite drop_drop. f_equal. lia. }
  rewrite Ha at 1. apply foldl_adds.
  assert (Hr : ∀ j, j < 8 →
            adds zero add (column_of zero j (c0 :: cs))
                 (at0 zero (foldl (vadd add) c0 cs) j)).
  { intros j Hj. destruct (lookup_lt_is_Some_2 c0 j) as [x Hx]; [lia|].
    unfold at0 at 1.
    rewrite (lookup_foldl_vadd j c0 cs x); [|by eapply Forall_impl; [done|]; simpl; lia|done].
    simpl. rewrite foldl_column_of.
    change (column_of zero j (c0 :: cs)) with ([at0 zero c0 j] ++ column_of zero j cs).
    unfold at0 at 1. rewrite Hx. simpl default.
    apply (foldl_adds [x] (column_of zero j cs) x), adds_one. }
  apply (adds_perm zero add (concat ((λ j, column_of zero j (c0 :: cs)) <$> seq 0 8)));
    [symmetry; apply lanes_permutation; by constructor|].
  eapply adds_eq; [|repeat apply adds_app; apply Hr; lia].
  simpl. rewrite app_nil_r.
  repeat first [rewrite <- app_assoc | rewrite <- app_comm_cons]. done.
Qed.

Lemma pairwise_sum_within_adds (depth : nat) (a : list T) :
  adds zero add a (pairwise_sum_within zero add depth a).
Proof.
  revert a. induction depth as [|depth IH]; intros a; simpl;
    repeat case_decide;
    try (apply (foldl_adds [] a zero), adds_nil);
    try (apply pairwise_block_adds; lia).
  rewrite <- (take_drop (length a / 2 - (length a / 2) mod 8) a) at 1.
  by apply adds_app.
Qed.

Lemma pairwise_sum_within_enough (d d' : nat) (a : list T) :
  length a ≤ d → length a ≤ d' →
  pairwise_sum_within zero add d a = pairwise_sum_within zero add d' a.
Proof.
  revert d' a. induction d as [|d IH]; intros [|d'] a Hd Hd'; simpl;
    repeat case_decide; try done; try lia.
  assert (Hhalf : 57 ≤ length a / 2 - (length a / 2) mod 8 ≤ length a / 2).
  { pose proof (Nat.mod_upper_bound (length a / 2) 8).
    assert (64 ≤ length a / 2) by (apply Nat.div_le_lower_bound; lia). lia. }
  assert (length a / 2 < length a) by (apply Nat.div_lt; lia).
  f_equal; apply IH; rewrite ?length_take, ?length_drop; lia.
Qed.

(** A run of more than 128 entries is cut as numpy cuts it, at half its
    length rounded down to a multiple of eight. *)
Lemma pairwise_sum_cut (a : list T) :
  128 < length a →
  pairwise_sum zero add a
  = add (pairwise_sum zero add (take (length a / 2 - (length a / 2) mod 8) a))
        (pairwise_sum zero add (drop (length a / 2 - (length a / 2) mod 8) a)).
Proof.
  intros Hn. unfold pairwise_sum at 1.
  destruct (length a) as [|n] eqn:Hlen; [lia|]. simpl.
  rewrite decide_False, decide_False by lia. rewrite Hlen.
  assert (Hhalf : 57 ≤ S n / 2 - (S n / 2) mod 8 ≤ S n / 2).
  { pose proof (Nat.mod_upper_bound (S n / 2) 8).
    assert (64 ≤ S n / 2) by (apply Nat.div_le_lower_bound; lia). lia. }
  assert (S n / 2 < S n) by (apply Nat.div_lt; lia).
  unfold pairwise_sum.
  f_equal; apply pairwise_sum_within_enough; rewrite ?length_take, ?length_drop; lia.
Qed.

End CoaddFacts.

(** *** Exact sums *)

Section ExactFacts.
Context {T : Type} (zero : T) (add : T → T → T).
Context (ok : T → Prop) (val : T → Z) (bound : Z).
Hypothesis exact : exact_sums zero add ok val bound.

Lemma weight_app (xs ys : list T) :
  weight val (xs ++ ys) = (weight val xs + weight val ys)%Z.
Proof. induction xs as [|x xs IH]; simpl; [done|]. rewrite IH. lia. Qed.

Lemma total_app (xs ys : list T) :
  total val (xs ++ ys) = (total val xs + total val ys)%Z.
Proof. induction xs as [|x xs IH]; simpl; [done|]. rewrite IH. lia. Qed.

Lemma total_le_weight (xs : list T) :
  (0 ≤ weight val xs ∧ Z.abs (total val xs) ≤ weight val xs)%Z.
Proof. induction xs as [|x xs IH]; simpl; lia. Qed.

Lemma weight_Permutation (xs ys : list T) :
  xs ≡ₚ ys → weight val xs = weight val ys ∧ total val xs = total val ys.
Proof. induction 1; simpl; lia. Qed.

(** Whatever the order and the bracketing of the additions, a sum of
    entries whose magnitudes fit the bound is the entry that holds their
    integer sum. *)
Lemma adds_exact (xs : list T) (s : T) :
  adds zero add xs s → Forall ok xs → (weight val xs ≤ bound)%Z →
  ok s ∧ val s = total val xs.
Proof.
  induction 1 as [|x|xs ys a b Ha IHa Hb IHb|xs ys a Hp Ha IH]; intros Hok Hw.
  - apply exact.
  - apply Forall_cons in Hok as [Hx _]. simpl. split; [done|lia].
  - apply Forall_app in Hok as [Hxs Hys]. rewrite weight_app in Hw.
    pose proof (total_le_weight xs). pose proof (total_le_weight ys).
    destruct IHa as [Hoka Hvala]; [done|lia|].
    destruct IHb as [Hokb Hvalb]; [done|lia|].
    rewrite total_app, <- Hvala, <- Hvalb.
    apply exact; [done|done|lia].
  - destruct (weight_Permutation xs ys Hp) as [Hw' Ht].
    rewrite <- Ht. apply IH; [by rewrite Hp|lia].
Qed.

Lemma adds_unique (xs ys : list T) (s s' : T) :
  xs ≡ₚ ys → Forall ok xs → (weight val xs ≤ bound)%Z →
  adds zero add xs s → adds zero add ys s' → s = s'.
Proof.
  intros Hp Hok Hw Hs Hs'.
  destruct (adds_exact xs s Hs Hok Hw) as [Ho Hv].
  destruct (adds_exact xs s' (adds_perm zero add ys xs s' (symmetry Hp) Hs') Hok Hw)
    as [Ho' Hv'].
  apply exact; [done|done|congruence].
Qed.

Lemma Forall_ok_column_of (j : nat) (rs : list (list T)) :
  Forall (Forall ok) rs → Forall ok (column_of zero j rs).
Proof.
  intros Hrs. unfold column_of. apply Forall_fmap. eapply Forall_impl; [exact Hrs|].
  intros r Hr. simpl. unfold at0. destruct (r !! j) as [x|] eqn:Hx; simpl.
  - eapply (proj1 (Forall_forall _ _) Hr), list_elem_of_lookup_2, Hx.
  - apply exact.
Qed.

End ExactFacts.

(** The binary64 addition is exact on a finite set of numbers that passes
    the check [exact_on]. *)
Lemma exact_on_sound (dom : list float) (bound : Z) :
  exact_on dom bound = true →
  exact_sums 0%float PrimFloat.add (λ x, float_in dom x = true) float_val bound.
Proof.
  unfold exact_on. intros Hc.
  apply andb_prop in Hc as [Hc Hall]. apply andb_prop in Hc as [H0 Hv0].
  assert (Hin : ∀ x, float_in dom x = true → In x dom).
  { intros x Hx. unfold float_in in Hx. apply existsb_exists in Hx as (x' & Hx' & Heq).
    apply FloatAxioms.Leibniz.eqb_spec in Heq. by subst. }
  assert (Hpair : ∀ x z, float_in dom x = true → float_in dom z = true →
            implb (float_val x =? float_val z)%Z (PrimFloat.Leibniz.eqb x z) = true ∧
            implb (Z.abs (float_val x) + Z.abs (float_val z) <=? bound)%Z
                  (float_in dom (x + z)%float
                   && (float_val (x + z) =? float_val x + float_val z)%Z) = true).
  { intros x z Hx%Hin Hz%Hin.
    pose proof (proj1 (forallb_forall _ _) Hall x Hx) as Hrow. simpl in Hrow.
    pose proof (proj1 (forallb_forall _ _) Hrow z Hz) as Hxz. simpl in Hxz.
    by apply andb_prop in Hxz. }
  split.
  - split; [done|]. by apply Z.eqb_eq.
  - intros x z Hx Hz Hval. destruct (Hpair x z Hx Hz) as [Hinj _].
    rewrite (proj2 (Z.eqb_eq _ _) Hval) in Hinj. simpl in Hinj.
    by apply FloatAxioms.Leibniz.eqb_spec.
  - intros x z Hx Hz Hb. destruct (Hpair x z Hx Hz) as [_ Hadd].
    rewrite (proj2 (Z.leb_le _ _) Hb) in Hadd. simpl in Hadd.
    apply andb_prop in Hadd as [? ?]. split; [done|]. by apply Z.eqb_eq.
Qed.

(** The binary64 addition is exact on the integers from -64 to 64. *)
Lemma binary64_exact_upto_64 :
  exact_sums 0%float PrimFloat.add (λ x, float_in (integers_upto 64) x = true) float_val 64.
Proof. apply exact_on_sound. vm_compute. reflexivity. Qed.

(** *** [np.sum(a, axis=0)] *)

Section SumFacts.
Context {T : Type} (zero : T) (add : T → T → T).

Lemma np_sum_axis0_rows (a : matrix T) :
  ncols a ≠ 1 →
  np_sum_axis0 zero add a = foldl (vadd add) (replicate (ncols a) zero) (rows a).
Proof. unfold np_sum_axis0. by destruct (ncols a) as [|[|n]]. Qed.

Lemma np_sum_axis0_empty (P : nat) :
  np_sum_axis0 zero add (Matrix P []) = replicate P zero.
Proof. unfold np_sum_axis0. simpl. by destruct P as [|[|P]]. Qed.

Lemma concat_single_column (rs : list (list T)) :
  Forall (λ r, length r = 1) rs → concat rs = column_of zero 0 rs.
Proof.
  induction 1 as [|r rs Hr Hrs IH]; [done|]. simpl. rewrite IH.
  by destruct r as [|x [|? ?]].
Qed.

Lemma length_np_sum_axis0 (a : matrix T) :
  wf_matrix a → length (np_sum_axis0 zero add a) = ncols a.
Proof.
  intros Hwf. unfold np_sum_axis0.
  assert (Hfold : length (foldl (vadd add) (replicate (ncols a) zero) (rows a)) = ncols a)
    by (apply length_foldl_vadd; [apply length_replicate|done]).
  destruct (ncols a) as [|[|n]] eqn:HP; try done. by destruct (rows a).
Qed.

(** Every entry of the result is a sum of exactly the entries of its
    pixel. *)
Lemma np_sum_axis0_adds (a : matrix T) (j : nat) :
  wf_matrix a → j < ncols a →
  ∃ s, np_sum_axis0 zero add a !! j = Some s ∧
       adds zero add (column_of zero j (rows a)) s.
Proof.
  intros Hwf Hj.
  assert (Hfold : ∃ s, foldl (vadd add) (replicate (ncols a) zero) (rows a) !! j = Some s ∧
                       adds zero add (column_of zero j (rows a)) s).
  { rewrite (lookup_foldl_vadd zero add j _ _ zero).
    - eexists. split; [done|]. rewrite foldl_column_of.
      apply (foldl_adds zero add [] _ zero), adds_nil.
    - eapply Forall_impl; [exact Hwf|]. simpl. intros r ->. done.
    - by apply lookup_replicate_2. }
  unfold np_sum_axis0. unfold wf_matrix in Hwf.
  destruct (ncols a) as [|[|n]] eqn:HP; try done.
  destruct (rows a) as [|r rs] eqn:Hrows; [done|].
  assert (j = 0) as -> by lia. eexists. split; [done|].
  rewrite <- concat_single_column by done.
  apply (adds_app zero add [] _ zero); [apply adds_nil|].
  apply pairwise_sum_within_adds.
Qed.

End SumFacts.

Lemma select_union_Permutation {A} (a b : list bool) (l : list A) :
  length a = length l → length b = length l → mask_disjoint a b →
  select a l ++ select b l ≡ₚ select (mask_or a b) l.
Proof.
  unfold mask_or. revert a b.
  induction l as [|x l IH]; intros [|u a] [|v b] Ha Hb Hd; simplify_eq/=; [done|].
  assert (Hd' : mask_disjoint a b) by (intros i; apply (Hd (S i))).
  specialize (IH a b Ha Hb Hd').
  destruct u, v; simpl.
  - destruct (Hd 0). done.
  - by rewrite IH.
  - rewrite <- Permutation_middle. by rewrite IH.
  - done.
Qed.

(** C3: with an all-false mask (no row selected) the co-added spectrum is the
    zero vector of length P, for every flux matrix with P columns.  Nothing
    is raised for an empty selection anywhere: the masked read returns the
    array with no row and its P columns, a one-dimensional selection returns
    the empty array, the only exception of the co-addition is the TypeError
    of a mask whose length is not the number of rows, and the exceptions of
    the notebook are NameError, KeyError, IndexError, TypeError and
    NotFittedError. *)
Theorem coadd_all_false_is_zero {T : Type} (zero : T) (add : T → T → T) (flux : matrix T) :
  color_cut_coadd zero add flux (replicate (nrows flux) false)
    = Ok (replicate (ncols flux) zero)
  ∧ (∀ mask, length mask = nrows flux → count_true mask = 0 →
       color_cut_coadd zero add flux mask = Ok (replicate (ncols flux) zero))
  ∧ (∀ mask e, color_cut_coadd zero add flux mask = Raise e →
       e = TypeError ∧ length mask ≠ nrows flux)
  ∧ (∀ mask, length mask = nrows flux → count_true mask = 0 →
       color_cut_flux flux mask = Ok (Matrix (ncols flux) []))
  ∧ (∀ (A : Type) (a : list A) (mask : list bool),
       length mask = length a → count_true mask = 0 → getitem_mask a mask = Ok [])
  ∧ (∀ e : exn,
       (∃ name, e = NameError name) ∨ (∃ key, e = KeyError key) ∨
       e = IndexError ∨ e = TypeError ∨ e = NotFittedError).
Proof.
  unfold color_cut_coadd. split; [|split; [|split; [|split; [|split]]]].
  - rewrite color_cut_flux_eq by apply length_replicate. simpl.
    rewrite select_replicate_false. by rewrite np_sum_axis0_empty.
  - intros mask Hlen Hnone. rewrite color_cut_flux_eq by done. simpl.
    rewrite select_no_true by done. by rewrite np_sum_axis0_empty.
  - intros mask e. unfold color_cut_flux. case_decide; simpl; [done|].
    intros [= <-]. done.
  - intros mask Hlen Hnone. rewrite color_cut_flux_eq by done.
    by rewrite select_no_true.
  - intros A a mask Hlen Hnone. unfold getitem_mask.
    rewrite decide_True by done. by rewrite select_no_true.
  - intros [name|key| | |]; eauto 6.
Qed.

(** C1, as amended: for every flux matrix and every two masks A and B of its
    number of rows that share no true position, the three co-additions
    succeed, and at every pixel the entry of the co-addition over A∪B and the
    sum of the entries of the co-additions over A and over B are both sums
    of exactly the entries of the rows selected by A∪B, each entering once,
    in possibly different orders of addition.  The co-addition over A∪B is
    the elementwise sum of the co-additions over A and over B whenever the
    additions are exact: the selected entries are numbers on which the
    addition is exact up to a bound and, at every pixel, the magnitudes of
    the selected entries add up to no more than that bound. *)
Theorem coadd_union_disjoint {T : Type} (zero : T) (add : T → T → T)
    (flux : matrix T) (A B : list bool) :
  wf_matrix flux →
  length A = nrows flux → length B = nrows flux → mask_disjoint A B →
  ∃ a b ab,
    color_cut_coadd zero add flux A = Ok a ∧
    color_cut_coadd zero add flux B = Ok b ∧
    color_cut_coadd zero add flux (mask_or A B) = Ok ab ∧
    length ab = ncols flux ∧ length (vadd add a b) = ncols flux ∧
    (∀ j, j < ncols flux →
       ∃ s t, ab !! j = Some s ∧ vadd add a b !! j = Some t ∧
              adds zero add (column_of zero j (select (mask_or A B) (rows flux))) s ∧
              adds zero add (column_of zero j (select (mask_or A B) (rows flux))) t) ∧
    (∀ (ok : T → Prop) (val : T → Z) (bound : Z),
       exact_sums zero add ok val bound →
       Forall (Forall ok) (select (mask_or A B) (rows flux)) →
       (∀ j, j < ncols flux →
          (weight val (column_of zero j (select (mask_or A B) (rows flux))) ≤ bound)%Z) →
       ab = vadd add a b).
Proof.
  intros Hwf HA HB Hd. unfold color_cut_coadd.
  assert (HAB : length (mask_or A B) = nrows flux).
  { unfold mask_or. rewrite length_zip_with. lia. }
  rewrite !color_cut_flux_eq by done. simpl.
  eexists _, _, _. split; [done|]. split; [done|]. split; [done|].
  assert (Hsel : ∀ m, wf_matrix (Matrix (ncols flux) (select m (rows flux))))
    by (intros m; by apply Forall_select).
  assert (Hlen : ∀ m, length (np_sum_axis0 zero add
                                (Matrix (ncols flux) (select m (rows flux)))) = ncols flux)
    by (intros m; by rewrite length_np_sum_axis0).
  pose proof (select_union_Permutation A B (rows flux) HA HB Hd) as Hperm.
  assert (Hlenv : length (vadd add
                    (np_sum_axis0 zero add (Matrix (ncols flux) (select A (rows flux))))
                    (np_sum_axis0 zero add (Matrix (ncols flux) (select B (rows flux)))))
                  = ncols flux).
  { unfold vadd. rewrite length_zip_with, !Hlen. lia. }
  assert (Hsums : ∀ j, j < ncols flux →
            ∃ s t,
              np_sum_axis0 zero add (Matrix (ncols flux) (select (mask_or A B) (rows flux)))
                !! j = Some s ∧
              vadd add
                (np_sum_axis0 zero add (Matrix (ncols flux) (select A (rows flux))))
                (np_sum_axis0 zero add (Matrix (ncols flux) (select B (rows flux))))
                !! j = Some t ∧
              adds zero add (column_of zero j (select (mask_or A B) (rows flux))) s ∧
              adds zero add (column_of zero j (select (mask_or A B) (rows flux))) t).
  { intros j Hj.
    destruct (np_sum_axis0_adds zero add _ j (Hsel A) Hj) as (sa & Ha & Hadda).
    destruct (np_sum_axis0_adds zero add _ j (Hsel B) Hj) as (sb & Hb & Haddb).
    destruct (np_sum_axis0_adds zero add _ j (Hsel (mask_or A B)) Hj)
      as (sab & Hab & Haddab).
    exists sab, (add sa sb). split; [done|]. split; [|split; [done|]].
    - unfold vadd. by rewrite lookup_zip_with, Ha, Hb.
    - eapply adds_perm; [|by apply adds_app].
      unfold column_of. rewrite <- fmap_app. simpl. by rewrite Hperm. }
  split; [apply Hlen|]. split; [done|]. split; [done|].
  intros ok val bound Hexact Hok Hw.
  apply (list_eq_same_length _ _ (ncols flux)); [done|apply Hlen|].
  intros j x z Hj Hx Hz.
  destruct (Hsums j Hj) as (s & t & Hs & Ht & Hadds & Haddt).
  simplify_eq.
  eapply (adds_unique zero add ok val bound Hexact
            (column_of zero j (select (mask_or A B) (rows flux))));
    [reflexivity| | |exact Hadds|exact Haddt].
  - by apply (Forall_ok_column_of zero add ok val bound).
  - by apply Hw.
Qed.

(** The amended C1 at binary64, on the three spectra [1,2], [3,4], [5,6]
    with A the first row and B the last: the addition is exact on the
    integers 0 to 8, and the co-addition over the two rows is the sum of
    the two co-additions. *)
Lemma coadd_union_disjoint_witness :
  ∃ a b,
    coadd (Matrix 2 [[1; 2]; [3; 4]; [5; 6]]%float) [true; false; false] = Ok a ∧
    coadd (Matrix 2 [[1; 2]; [3; 4]; [5; 6]]%float) [false; false; true] = Ok b ∧
    coadd (Matrix 2 [[1; 2]; [3; 4]; [5; 6]]%float)
      (mask_or [true; false; false] [false; false; true]) = Ok (vadd PrimFloat.add a b).
Proof.
  destruct (coadd_union_disjoint 0%float PrimFloat.add
              (Matrix 2 [[1; 2]; [3; 4]; [5; 6]]%float)
              [true; false; false] [false; false; true])
    as (a & b & ab & Ha & Hb & Hab & _ & _ & _ & Hexact).
  - unfold wf_matrix. simpl. repeat constructor.
  - reflexivity.
  - reflexivity.
  - intros [|[|[|i]]]; simpl; intros [? ?]; discriminate.
  - exists a, b. split; [exact Ha|]. split; [exact Hb|].
    unfold coadd. rewrite Hab. f_equal.
    apply (Hexact (λ x, float_in [0; 1; 2; 3; 4; 5; 6; 7; 8]%float x = true) float_val 8%Z).
    + apply exact_on_sound. vm_compute. reflexivity.
    + simpl. repeat constructor.
    + intros [|[|j]] Hj; simpl in Hj; [vm_compute; discriminate..|lia].
Defined.

(** C1 as stated fails at binary64: with the two-pixel rows [1e16, 2],
    [1, 3], [-1e16, 4], A the first and last row and B the middle one, the
    co-addition over A∪B is [0, 9] while the sum of the two co-additions is
    [1, 9]. *)
Lemma coadd_union_binary64_counterexample :
  let flux := Matrix 2 [[1e16; 2]; [1; 3]; [-1e16; 4]]%float in
  let A := [true; false; true] in
  let B := [false; true; false] in
  (length A = nrows flux ∧ length B = nrows flux ∧ mask_disjoint A B) ∧
  coadd flux A = Ok [0; 6]%float ∧
  coadd flux B = Ok [1; 3]%float ∧
  coadd flux (mask_or A B) = Ok [0; 9]%float ∧
  vadd PrimFloat.add [0; 6]%float [1; 3]%float = [1; 9]%float ∧
  (0 =? 1)%float = false ∧
  ¬ (∃ a b, coadd flux A = Ok a ∧ coadd flux B = Ok b ∧
            coadd flux (mask_or A B) = Ok (vadd PrimFloat.add a b)).
Proof.
  cbv zeta. repeat split; try reflexivity.
  - intros [|[|[|i]]]; simpl; intros [? ?]; discriminate.
  - intros (a & b & Ha & Hb & Hab).
    vm_compute in Ha, Hb. injection Ha as <-. injection Hb as <-.
    apply (f_equal (λ r, match r with Ok (v :: _) => PrimFloat.eqb v 0 | _ => false end)) in Hab.
    vm_compute in Hab. discriminate.
Qed.

(** C2, as amended: for every flux matrix with P columns and every mask of
    its number of rows, the co-addition returns a vector of length P whose
    entry j is a sum of exactly the entries [flux[i][j]] of the rows i where
    the mask is true, each entering once; with two or more columns the rows
    are added in increasing row order from zero (with a single column numpy
    adds them in its pairwise order).  Whenever the additions are exact (the
    selected entries are numbers on which the addition is exact up to a
    bound and, at every pixel, their magnitudes add up to no more than the
    bound) entry j holds the integer sum of those entries and the result is
    the same for every order of the selected rows.  For [[1,2],[3,4],[5,6]]
    with the mask [true,false,true] the result is [6,8]. *)
Theorem coadd_contract {T : Type} (zero : T) (add : T → T → T)
    (flux : matrix T) (mask : list bool) :
  wf_matrix flux → length mask = nrows flux →
  ∃ v,
    color_cut_coadd zero add flux mask = Ok v ∧
    length v = ncols flux ∧
    (∀ j, j < ncols flux →
       ∃ s, v !! j = Some s ∧
            adds zero add (column_of zero j (select mask (rows flux))) s) ∧
    (ncols flux ≠ 1 →
       ∀ j, j < ncols flux → v !! j = Some (coadd_entry_spec zero add flux mask j)) ∧
    (∀ (ok : T → Prop) (val : T → Z) (bound : Z),
       exact_sums zero add ok val bound →
       Forall (Forall ok) (select mask (rows flux)) →
       (∀ j, j < ncols flux →
          (weight val (column_of zero j (select mask (rows flux))) ≤ bound)%Z) →
       (∀ j s, v !! j = Some s →
          ok s ∧ val s = total val (column_of zero j (select mask (rows flux)))) ∧
       (∀ reordered, select mask (rows flux) ≡ₚ reordered →
          np_sum_axis0 zero add (Matrix (ncols flux) reordered) = v)) ∧
    coadd (Matrix 2 [[1; 2]; [3; 4]; [5; 6]]%float) [true; false; true]
      = Ok [6; 8]%float.
Proof.
  intros Hwf Hlen. unfold color_cut_coadd. rewrite color_cut_flux_eq by done. simpl.
  eexists. split; [done|].
  assert (Hsel : wf_matrix (Matrix (ncols flux) (select mask (rows flux))))
    by by apply Forall_select.
  pose proof (length_np_sum_axis0 zero add _ Hsel) as Hlenv. simpl in Hlenv.
  split; [done|]. split; [|split; [|split; [|reflexivity]]].
  - intros j Hj. apply (np_sum_axis0_adds zero add _ j Hsel Hj).
  - intros HP j Hj. rewrite np_sum_axis0_rows by done. simpl.
    rewrite (lookup_foldl_vadd zero add j _ _ zero).
    + f_equal. by rewrite foldl_select_seq.
    + eapply Forall_impl; [exact Hsel|]. simpl. intros r ->. done.
    + by apply lookup_replicate_2.
  - intros ok val bound Hexact Hok Hw. split.
    + intros j s Hs.
      assert (Hj : j < ncols flux) by (rewrite <- Hlenv; by eapply lookup_lt_Some).
      destruct (np_sum_axis0_adds zero add _ j Hsel Hj) as (s' & Hs' & Hadds).
      simplify_eq/=.
      apply (adds_exact zero add ok val bound Hexact _ _ Hadds);
        [by apply (Forall_ok_column_of zero add ok val bound)|by apply Hw].
    + intros reordered Hperm.
      assert (Hsel' : wf_matrix (Matrix (ncols flux) reordered)).
      { unfold wf_matrix in *. simpl in *. by rewrite <- Hperm. }
      pose proof (length_np_sum_axis0 zero add _ Hsel') as Hlenv'. simpl in Hlenv'.
      apply (list_eq_same_length _ _ (ncols flux)); [done|done|].
      intros j x z Hj Hx Hz.
      destruct (np_sum_axis0_adds zero add _ j Hsel' Hj) as (s' & Hs' & Hadds').
      destruct (np_sum_axis0_adds zero add _ j Hsel Hj) as (s & Hs & Hadds).
      simplify_eq/=. symmetry.
      eapply (adds_unique zero add ok val bound Hexact
                (column_of zero j (select mask (rows flux)))); [| | |exact Hadds|exact Hadds'];
        [|by apply (Forall_ok_column_of zero add ok val bound)|by apply Hw].
      unfold column_of. by rewrite Hperm.
Qed.

(** The amended C2 at binary64, on the scenario of the specification: the
    addition is exact on the integers 0 to 8, the result holds the integer
    sums 6 and 8 and is the same for every order of the two selected
    rows. *)
Lemma coadd_contract_witness :
  ∃ v,
    coadd (Matrix 2 [[1; 2]; [3; 4]; [5; 6]]%float) [true; false; true] = Ok v ∧
    length v = 2 ∧
    (∀ j s, v !! j = Some s →
       float_val s = total float_val (column_of 0%float j [[1; 2]; [5; 6]]%float)) ∧
    (∀ reordered, [[1; 2]; [5; 6]]%float ≡ₚ reordered →
       np_sum_axis0 0%float PrimFloat.add (Matrix 2 reordered) = v) ∧
    v = [6; 8]%float.
Proof.
  destruct (coadd_contract 0%float PrimFloat.add
              (Matrix 2 [[1; 2]; [3; 4]; [5; 6]]%float) [true; false; true])
    as (v & Hv & Hlen & _ & _ & Hexact & Hscenario).
  - unfold wf_matrix. simpl. repeat constructor.
  - reflexivity.
  - destruct (Hexact (λ x, float_in [0; 1; 2; 3; 4; 5; 6; 7; 8]%float x = true) float_val 8%Z)
      as [Hval Horder].
    + apply exact_on_sound. vm_compute. reflexivity.
    + simpl. repeat constructor.
    + intros [|[|j]] Hj; simpl in Hj; [vm_compute; discriminate..|lia].
    + exists v. split; [exact Hv|]. split; [exact Hlen|].
      split; [intros j s Hs; by apply Hval|]. split; [exact Horder|].
      unfold coadd in Hscenario. rewrite Hv in Hscenario. by injection Hscenario.
Defined.

(** C2 as stated fails at binary64: the two-pixel rows [1e16, 2], [1, 3],
    [-1e16, 4], all selected, add up to [0, 9] in row order and to [1, 9] in
    the order first, third, second, so the result does depend on the order of
    the selected rows. *)
Lemma coadd_order_binary64_counterexample :
  let flux := Matrix 2 [[1e16; 2]; [1; 3]; [-1e16; 4]]%float in
  let mask := [true; true; true] in
  let reordered := [[1e16; 2]; [-1e16; 4]; [1; 3]]%float in
  (wf_matrix flux ∧ length mask = nrows flux) ∧
  select mask (rows flux) ≡ₚ reordered ∧
  coadd flux mask = Ok [0; 9]%float ∧
  np_sum_axis0 0%float PrimFloat.add (Matrix 2 reordered) = [1; 9]%float ∧
  (0 =? 1)%float = false ∧
  ¬ (∀ rs, select mask (rows flux) ≡ₚ rs →
       coadd flux mask = Ok (np_sum_axis0 0%float PrimFloat.add (Matrix 2 rs))).
Proof.
  cbv zeta. repeat split; try reflexivity.
  - unfold wf_matrix. simpl. repeat constructor.
  - simpl. constructor. apply perm_swap.
  - intros Hall.
    specialize (Hall [[1e16; 2]; [-1e16; 4]; [1; 3]]%float).
    assert (Hp : select [true; true; true] [[1e16; 2]; [1; 3]; [-1e16; 4]]%float
                 ≡ₚ [[1e16; 2]; [-1e16; 4]; [1; 3]]%float)
      by (simpl; constructor; apply perm_swap).
    apply Hall in Hp.
    apply (f_equal (λ r, match r with Ok (v :: _) => PrimFloat.eqb v 0 | _ => false end)) in Hp.
    vm_compute in Hp. discriminate.
Qed.

(** A single column of eight spectra is summed pairwise: 1e16 and -1e16
    meet before the ones are added. *)
Example coadd_single_column_pairwise :
  coadd (Matrix 1 [[1e16]; [1]; [-1e16]; [1]; [1]; [1]; [1]; [1]]%float)
        [true; true; true; true; true; true; true; true]
  = Ok [4]%float.
Proof. vm_compute. reflexivity. Qed.

(** C6: for every dataset and every mask of its number of rows, the masked
    read returns (without raising) a subset with the same columns, whose
    number of rows is the number of true entries of the mask and whose row k
    is the dataset's row at the k-th true index of the mask, the true
    indices being enumerated in increasing order; a mask with no true entry
    gives the subset with no row. *)
Theorem slice_rows_by_mask {A : Type} (dataset : matrix A) (mask : list bool) :
  length mask = nrows dataset →
  ∃ subset,
    color_cut_flux dataset mask = Ok subset ∧
    ncols subset = ncols dataset ∧
    nrows subset = count_true mask ∧
    length (true_indices mask) = count_true mask ∧
    StronglySorted lt (true_indices mask) ∧
    (∀ i, i ∈ true_indices mask ↔ mask !! i = Some true) ∧
    (∀ k i, true_indices mask !! k = Some i →
       is_Some (rows dataset !! i) ∧ rows subset !! k = rows dataset !! i) ∧
    (count_true mask = 0 → rows subset = []).
Proof.
  intros Hlen. rewrite color_cut_flux_eq by done. eexists. split; [done|]. simpl.
  pose proof (select_true_indices mask (rows dataset) Hlen) as Hsel.
  assert (Hn : length (select mask (rows dataset)) = count_true mask)
    by by apply length_select.
  assert (Hmem : ∀ i, i ∈ true_indices mask ↔ mask !! i = Some true).
  { intros i. unfold true_indices. rewrite elem_of_true_indices_from.
    rewrite Nat.sub_0_r. split; [by intros [_ ?]|]. split; [lia|done]. }
  split; [done|]. split; [done|]. split; [|split; [|split; [done|split]]].
  - rewrite <- Hn. apply (f_equal length) in Hsel.
    by rewrite !length_fmap in Hsel.
  - apply true_indices_from_increasing.
  - intros k i Hk.
    assert (Hi : is_Some (rows dataset !! i)).
    { apply lookup_lt_is_Some. fold (nrows dataset). rewrite <- Hlen.
      eapply lookup_lt_Some, Hmem, list_elem_of_lookup_2, Hk. }
    split; [done|].
    apply (f_equal (.!! k)) in Hsel. rewrite !list_lookup_fmap, Hk in Hsel.
    simpl in Hsel. destruct (select mask (rows dataset) !! k); simplify_eq/=; done.
  - intros Hnone. by apply select_no_true.
Qed.

(** C6 at a dataset of three rows and the mask [true,false,true]. *)
Lemma slice_rows_by_mask_witness :
  ∃ subset,
    color_cut_flux (Matrix 2 [[1; 2]; [3; 4]; [5; 6]]%Z) [true; false; true] = Ok subset ∧
    ncols subset = 2 ∧
    nrows subset = count_true [true; false; true] ∧
    length (true_indices [true; false; true]) = count_true [true; false; true] ∧
    StronglySorted lt (true_indices [true; false; true]) ∧
    (∀ i, i ∈ true_indices [true; false; true] ↔ [true; false; true] !! i = Some true) ∧
    (∀ k i, true_indices [true; false; true] !! k = Some i →
       is_Some ([[1; 2]; [3; 4]; [5; 6]]%Z !! i) ∧
       rows subset !! k = [[1; 2]; [3; 4]; [5; 6]]%Z !! i) ∧
    (count_true [true; false; true] = 0 → rows subset = []).
Proof.
  apply (slice_rows_by_mask (Matrix 2 [[1; 2]; [3; 4]; [5; 6]]%Z) [true; false; true]).
  reflexivity.
Defined.

(** ** IEEE comparisons and NaN *)

Lemma is_nan_Prim2SF (v : float) : is_nan v = true ↔ Prim2SF v = S754_nan.
Proof.
  unfold is_nan. rewrite FloatAxioms.eqb_spec. unfold SFeqb.
  destruct (Prim2SF v) as [s|s| |s m e]; simpl.
  - done.
  - by destruct s.
  - done.
  - destruct s; rewrite Z.compare_refl, Pos.compare_cont_refl; done.
Qed.

Lemma nan_not_greater (v c : float) : is_nan v = true → np_greater v c = false.
Proof.
  intros Hv%is_nan_Prim2SF. unfold np_greater.
  rewrite FloatAxioms.ltb_spec, Hv. unfold SFltb. by destruct (Prim2SF c).
Qed.

Lemma nan_not_less (v c : float) : is_nan v = true → np_less v c = false.
Proof.
  intros Hv%is_nan_Prim2SF. unfold np_less.
  rewrite FloatAxioms.ltb_spec, Hv. done.
Qed.

Lemma nan_sub (a b : float) :
  is_nan a = true ∨ is_nan b = true → is_nan (a - b)%float = true.
Proof.
  intros Hab. apply is_nan_Prim2SF. rewrite FloatAxioms.sub_spec. unfold SF64sub.
  destruct Hab as [Ha%is_nan_Prim2SF | Hb%is_nan_Prim2SF].
  - by rewrite Ha.
  - rewrite Hb. by destruct (Prim2SF a).
Qed.

(** ** Traversals that may raise *)

Lemma mapM_result_Forall2 {A B} (f : A → result B) (l : list A) (k : list B) :
  Forall2 (λ x z, f x = Ok z) l k → mapM f l = Ok k.
Proof.
  induction 1 as [|x z l k Hx _ IH]; simpl; [done|].
  rewrite Hx. simpl. rewrite IH. done.
Qed.

Lemma mapM_result_lookup {A B} (f : A → result B) (l : list A) (k : list B) :
  length l = length k →
  (∀ i x, l !! i = Some x → ∃ z, k !! i = Some z ∧ f x = Ok z) →
  mapM f l = Ok k.
Proof.
  intros Hlen Hf. apply mapM_result_Forall2.
  apply Forall2_same_length_lookup_2; [done|].
  intros i x z Hx Hz. destruct (Hf i x Hx) as (z' & Hz' & ->). congruence.
Qed.

(** ** The colour cut, row by row *)

Lemma getcol_lookup {A} (a : matrix A) (k : nat) :
  wf_matrix a → k < ncols a →
  ∃ c, getcol a k = Ok c ∧ length c = nrows a ∧
       ∀ i row, rows a !! i = Some row → is_Some (row !! k) ∧ c !! i = row !! k.
Proof.
  intros Hwf Hk. unfold getcol. rewrite decide_True by done.
  unfold wf_matrix, nrows in *. induction Hwf as [|r rs Hr Hwf IH]; simpl.
  - exists []. split; [done|]. split; [done|]. intros i row Hi.
    by rewrite lookup_nil in Hi.
  - destruct IH as (c & -> & Hlen & Hc).
    destruct (lookup_lt_is_Some_2 r k) as [x Hx]; [lia|]. rewrite Hx. simpl.
    exists (x :: c). split; [done|]. split; [simpl; lia|].
    intros [|i] row Hi; simplify_eq/=; [by rewrite Hx|]. by apply Hc.
Qed.

Lemma color_cut_rows (photoPos : table) (PSFMAG : matrix float) :
  columns photoPos !! "PSFMAG" = Some (VecColumn PSFMAG) →
  wf_matrix PSFMAG → 3 < ncols PSFMAG →
  ∃ gr ri mask,
    g_r photoPos = Ok gr ∧ r_i photoPos = Ok ri ∧
    color_cut photoPos = Ok mask ∧ length mask = nrows PSFMAG ∧
    ∀ i row, rows PSFMAG !! i = Some row →
      ∃ g r ic, row !! 1 = Some g ∧ row !! 2 = Some r ∧ row !! 3 = Some ic ∧
                gr !! i = Some (g - r)%float ∧ ri !! i = Some (r - ic)%float ∧
                mask !! i = Some (row_cut g r ic).
Proof.
  intros Hcol Hwf Hw.
  destruct (getcol_lookup PSFMAG 1 Hwf) as (c1 & E1 & L1 & H1); [lia|].
  destruct (getcol_lookup PSFMAG 2 Hwf) as (c2 & E2 & L2 & H2); [lia|].
  destruct (getcol_lookup PSFMAG 3 Hwf) as (c3 & E3 & L3 & H3); [lia|].
  assert (Hp : ∀ k, psfmag photoPos k = getcol PSFMAG k).
  { intros k. unfold psfmag, getitem. by rewrite Hcol. }
  unfold color_cut, g_r, r_i. rewrite !Hp, E1, E2, E3. simpl.
  eexists _, _, _. do 3 (split; [done|]). split.
  - unfold color_cut_of, mask_and, vsub.
    rewrite !length_zip_with, !length_fmap, !length_zip_with. lia.
  - intros i row Hrow.
    destruct (H1 i row Hrow) as [[g Hg] Hc1].
    destruct (H2 i row Hrow) as [[r Hr] Hc2].
    destruct (H3 i row Hrow) as [[ic Hic] Hc3].
    exists g, r, ic. rewrite Hg, Hr, Hic. do 3 (split; [done|]).
    unfold color_cut_of, mask_and, vsub.
    rewrite !lookup_zip_with, !list_lookup_fmap, !lookup_zip_with.
    rewrite Hc1, Hc2, Hc3, Hg, Hr, Hic. done.
Qed.

(** C8: the mask is built from columns derived on the fly, g-r as component
    1 minus component 2 and r-i as component 2 minus component 3 of each
    row's magnitudes, and it is true at row i exactly when the four strict
    inequalities 0.45 < g-r, g-r < 0.55, 0 < r-i and r-i < 0.4 hold at row i;
    a value equal to a bound does not pass. *)
Theorem color_cut_strict_box (photoPos : table) (PSFMAG : matrix float) :
  columns photoPos !! "PSFMAG" = Some (VecColumn PSFMAG) →
  wf_matrix PSFMAG → 3 < ncols PSFMAG →
  (∃ gr ri mask,
     g_r photoPos = Ok gr ∧ r_i photoPos = Ok ri ∧
     color_cut photoPos = Ok mask ∧ length mask = nrows PSFMAG ∧
     ∀ i row, rows PSFMAG !! i = Some row →
       ∃ g r ic, row !! 1 = Some g ∧ row !! 2 = Some r ∧ row !! 3 = Some ic ∧
         gr !! i = Some (g - r)%float ∧ ri !! i = Some (r - ic)%float ∧
         (mask !! i = Some true ∨ mask !! i = Some false) ∧
         (mask !! i = Some true ↔
            (0.45 <? g - r)%float = true ∧ (g - r <? 0.55)%float = true ∧
            (0 <? r - ic)%float = true ∧ (r - ic <? 0.4)%float = true)) ∧
  (np_greater 0.45 0.45 = false ∧ np_less 0.55 0.55 = false ∧
   np_greater 0 0 = false ∧ np_less 0.4 0.4 = false).
Proof.
  intros Hcol Hwf Hw. split; [|done].
  destruct (color_cut_rows photoPos PSFMAG Hcol Hwf Hw)
    as (gr & ri & mask & Hgr & Hri & Hmask & Hlen & Hrows).
  exists gr, ri, mask. do 4 (split; [done|]).
  intros i row Hrow. destruct (Hrows i row Hrow) as (g & r & ic & ? & ? & ? & ? & ? & Hi).
  exists g, r, ic. do 5 (split; [done|]). rewrite Hi. split.
  - destruct (row_cut g r ic); auto.
  - unfold row_cut, np_greater, np_less. split.
    + intros [= Hc]. by repeat (apply andb_prop in Hc as [Hc ?]).
    + intros (-> & -> & -> & ->). done.
Qed.

(** C8 on a catalog of two sources, one inside the box and one on its
    edge. *)
Lemma color_cut_strict_box_witness :
  let PSFMAG := Matrix 5 [[19; 18.5; 18; 17.75; 17.5]; [19; 18.5; 18; 18; 17.5]]%float in
  let photoPos := Table 2 {["PSFMAG" := VecColumn PSFMAG]} in
  (∃ gr ri mask,
     g_r photoPos = Ok gr ∧ r_i photoPos = Ok ri ∧
     color_cut photoPos = Ok mask ∧ length mask = nrows PSFMAG ∧
     ∀ i row, rows PSFMAG !! i = Some row →
       ∃ g r ic, row !! 1 = Some g ∧ row !! 2 = Some r ∧ row !! 3 = Some ic ∧
         gr !! i = Some (g - r)%float ∧ ri !! i = Some (r - ic)%float ∧
         (mask !! i = Some true ∨ mask !! i = Some false) ∧
         (mask !! i = Some true ↔
            (0.45 <? g - r)%float = true ∧ (g - r <? 0.55)%float = true ∧
            (0 <? r - ic)%float = true ∧ (r - ic <? 0.4)%float = true)) ∧
  (np_greater 0.45 0.45 = false ∧ np_less 0.55 0.55 = false ∧
   np_greater 0 0 = false ∧ np_less 0.4 0.4 = false).
Proof.
  cbv zeta.
  apply (color_cut_strict_box
           (Table 2 {["PSFMAG" := VecColumn (Matrix 5
              [[19; 18.5; 18; 17.75; 17.5]; [19; 18.5; 18; 18; 17.5]]%float)]})
           (Matrix 5 [[19; 18.5; 18; 17.75; 17.5]; [19; 18.5; 18; 18; 17.5]]%float)).
  - reflexivity.
  - unfold wf_matrix. simpl. repeat constructor.
  - simpl. lia.
Defined.

(** C5: for every photometric table, the colour cut is false (and nothing is
    raised) at every row where a magnitude entering a colour, or the colour
    g-r or r-i itself, is NaN; for every bound, neither [v > bound] nor
    [v < bound] holds of a NaN [v]. *)
Theorem color_cut_nan_is_false (photoPos : table) (PSFMAG : matrix float) :
  columns photoPos !! "PSFMAG" = Some (VecColumn PSFMAG) →
  wf_matrix PSFMAG → 3 < ncols PSFMAG →
  (∃ mask,
     color_cut photoPos = Ok mask ∧ length mask = nrows PSFMAG ∧
     ∀ i row, rows PSFMAG !! i = Some row →
       ∃ g r ic, row !! 1 = Some g ∧ row !! 2 = Some r ∧ row !! 3 = Some ic ∧
         (is_nan g = true ∨ is_nan r = true ∨ is_nan ic = true ∨
          is_nan (g - r)%float = true ∨ is_nan (r - ic)%float = true →
          mask !! i = Some false)) ∧
  (∀ v bound, is_nan v = true →
     np_greater v bound = false ∧ np_less v bound = false).
Proof.
  intros Hcol Hwf Hw. split; [|by auto using nan_not_greater, nan_not_less].
  destruct (color_cut_rows photoPos PSFMAG Hcol Hwf Hw)
    as (gr & ri & mask & _ & _ & Hmask & Hlen & Hrows).
  exists mask. do 2 (split; [done|]).
  intros i row Hrow. destruct (Hrows i row Hrow) as (g & r & ic & ? & ? & ? & _ & _ & Hi).
  exists g, r, ic. do 3 (split; [done|]). rewrite Hi. intros Hnan. f_equal.
  assert (Hcolour : is_nan (g - r)%float = true ∨ is_nan (r - ic)%float = true).
  { destruct Hnan as [?|[?|[?|[?|?]]]]; auto using nan_sub. }
  unfold row_cut. destruct Hcolour as [Hc|Hc].
  - by rewrite (nan_not_greater _ _ Hc).
  - rewrite (nan_not_less _ _ Hc). by rewrite andb_false_r.
Qed.

(** C5 on a catalog whose first source has no r magnitude. *)
Lemma color_cut_nan_is_false_witness :
  let PSFMAG := Matrix 5 [[19; 18.5; nan; 17.75; 17.5]; [19; 18.5; 18; 17.75; 17.5]]%float in
  let photoPos := Table 2 {["PSFMAG" := VecColumn PSFMAG]} in
  (∃ mask,
     color_cut photoPos = Ok mask ∧ length mask = nrows PSFMAG ∧
     ∀ i row, rows PSFMAG !! i = Some row →
       ∃ g r ic, row !! 1 = Some g ∧ row !! 2 = Some r ∧ row !! 3 = Some ic ∧
         (is_nan g = true ∨ is_nan r = true ∨ is_nan ic = true ∨
          is_nan (g - r)%float = true ∨ is_nan (r - ic)%float = true →
          mask !! i = Some false)) ∧
  (∀ v bound, is_nan v = true →
     np_greater v bound = false ∧ np_less v bound = false).
Proof.
  cbv zeta.
  apply (color_cut_nan_is_false
           (Table 2 {["PSFMAG" := VecColumn (Matrix 5
              [[19; 18.5; nan; 17.75; 17.5]; [19; 18.5; 18; 17.75; 17.5]]%float)]})
           (Matrix 5 [[19; 18.5; nan; 17.75; 17.5]; [19; 18.5; 18; 17.75; 17.5]]%float)).
  - reflexivity.
  - unfold wf_matrix. simpl. repeat constructor.
  - simpl. lia.
Defined.

(** ** Labels and features *)

Lemma extract_labels_eq (positive : string) (specObj : table) (cls : list string) :
  columns specObj !! "CLASS" = Some (StrColumn cls) →
  length cls = table_len specObj →
  extract_labels positive specObj
  = Ok ((λ c, if bool_decide (c = positive) then 1 else 0)%Z <$> cls).
Proof.
  intros Hcol Hlen. unfold extract_labels. apply mapM_result_lookup.
  - by rewrite length_seq, length_fmap.
  - intros i n [-> Hi]%lookup_seq. simpl in *.
    destruct (lookup_lt_is_Some_2 cls i) as [c Hc]; [lia|].
    rewrite list_lookup_fmap, Hc. simpl. eexists. split; [done|].
    unfold label_at, getitem. rewrite Hcol. simpl. rewrite Hc. done.
Qed.

(** C7: for every catalog whose class column has its R rows and every
    positive class, the labels are a vector of length R whose entry i is 1
    when the class of row
    i is the positive class and 0 otherwise; the notebook's [y] is the case
    of the positive class STAR, and for the ten classes STAR, STAR, QSO,
    GALAXY, STAR, QSO, GALAXY, STAR, QSO, GALAXY it is
    [1,1,0,0,1,0,0,1,0,0]. *)
Theorem extract_labels_binary (positive : string) (specObj : table) (cls : list string) :
  wf_table specObj →
  columns specObj !! "CLASS" = Some (StrColumn cls) →
  (∃ labels,
     extract_labels positive specObj = Ok labels ∧
     length labels = length cls ∧
     ∀ i c, cls !! i = Some c →
       labels !! i = Some (if decide (c = positive) then 1 else 0)%Z) ∧
  y specObj = extract_labels "STAR" specObj ∧
  y (Table 10 {["CLASS" := StrColumn
       ["STAR"; "STAR"; "QSO"; "GALAXY"; "STAR"; "QSO"; "GALAXY"; "STAR"; "QSO"; "GALAXY"]]})
    = Ok [1; 1; 0; 0; 1; 0; 0; 1; 0; 0]%Z.
Proof.
  intros Hwf Hcol. pose proof (Hwf _ _ Hcol) as Hlen. simpl in Hlen.
  split; [|split; [done|]].
  - rewrite (extract_labels_eq positive specObj cls) by done.
    eexists. split; [done|]. split; [by rewrite length_fmap|].
    intros i c Hc. rewrite list_lookup_fmap, Hc. simpl.
    case_bool_decide; case_decide; done.
  - vm_compute. reflexivity.
Qed.

(** C7 at the ten-row catalog of the specification. *)
Lemma extract_labels_binary_witness :
  let cls := ["STAR"; "STAR"; "QSO"; "GALAXY"; "STAR"; "QSO"; "GALAXY"; "STAR"; "QSO"; "GALAXY"] in
  let specObj := Table 10 {["CLASS" := StrColumn cls]} in
  (∃ labels,
     extract_labels "STAR" specObj = Ok labels ∧
     length labels = length cls ∧
     ∀ i c, cls !! i = Some c →
       labels !! i = Some (if decide (c = "STAR") then 1 else 0)%Z) ∧
  y specObj = extract_labels "STAR" specObj ∧
  y (Table 10 {["CLASS" := StrColumn
       ["STAR"; "STAR"; "QSO"; "GALAXY"; "STAR"; "QSO"; "GALAXY"; "STAR"; "QSO"; "GALAXY"]]})
    = Ok [1; 1; 0; 0; 1; 0; 0; 1; 0; 0]%Z.
Proof.
  cbv zeta.
  apply (extract_labels_binary "STAR"
           (Table 10 {["CLASS" := StrColumn
              ["STAR"; "STAR"; "QSO"; "GALAXY"; "STAR"; "QSO"; "GALAXY"; "STAR"; "QSO"; "GALAXY"]]})
           ["STAR"; "STAR"; "QSO"; "GALAXY"; "STAR"; "QSO"; "GALAXY"; "STAR"; "QSO"; "GALAXY"]).
  - intros name c Hc. simpl in Hc. apply lookup_singleton_Some in Hc as [<- <-]. reflexivity.
  - reflexivity.
Defined.

(** C4, as amended: the features are the PSFMAG column as it is, whatever
    its per-row width (4, 5, 6 or any other): no width is checked and no
    shape exception exists; the only exception of the feature extraction is
    the KeyError of a table without a PSFMAG column. *)
Theorem extract_features_unmodified (photoPos : table) (PSFMAG : column) :
  columns photoPos !! "PSFMAG" = Some PSFMAG →
  X photoPos = Ok PSFMAG ∧
  (∀ other e, X other = Raise e →
     e = KeyError "PSFMAG" ∧ columns other !! "PSFMAG" = None).
Proof.
  intros Hcol. unfold X, getitem. rewrite Hcol. split; [done|].
  intros other e. destruct (columns other !! "PSFMAG"); [done|]. by intros [= <-].
Qed.

(** The amended C4 at a magnitude column of width 5. *)
Lemma extract_features_unmodified_witness :
  let PSFMAG := VecColumn (Matrix 5 [[19; 18.5; 18; 17.75; 17.5]]%float) in
  X (Table 1 {["PSFMAG" := PSFMAG]}) = Ok PSFMAG ∧
  (∀ other e, X other = Raise e →
     e = KeyError "PSFMAG" ∧ columns other !! "PSFMAG" = None).
Proof.
  cbv zeta.
  apply (extract_features_unmodified
           (Table 1 {["PSFMAG" := VecColumn (Matrix 5 [[19; 18.5; 18; 17.75; 17.5]]%float)]})).
  reflexivity.
Defined.

(** C4 as stated fails: magnitude columns of per-row width 4 and 6 are
    returned as they are, and nothing is raised. *)
Lemma extract_features_width_counterexample :
  let four := VecColumn (Matrix 4 [[19; 18.5; 18; 17.75]]%float) in
  let six := VecColumn (Matrix 6 [[19; 18.5; 18; 17.75; 17.5; 17]]%float) in
  X (Table 1 {["PSFMAG" := four]}) = Ok four ∧
  X (Table 1 {["PSFMAG" := six]}) = Ok six ∧
  ¬ (∀ photoPos m, columns photoPos !! "PSFMAG" = Some (VecColumn m) →
       wf_matrix m → ncols m ≠ 5 → ∃ e, X photoPos = Raise e).
Proof.
  cbv zeta. split; [reflexivity|]. split; [reflexivity|].
  intros Hall.
  destruct (Hall (Table 1 {["PSFMAG" := VecColumn (Matrix 4 [[19; 18.5; 18; 17.75]]%float)]})
                 (Matrix 4 [[19; 18.5; 18; 17.75]]%float)) as [e He].
  - reflexivity.
  - unfold wf_matrix. simpl. repeat constructor.
  - simpl. lia.
  - vm_compute in He. discriminate.
Qed.

(** ** The classifier cells *)

Section ClassifierFacts.
Context {Model : Type}.
Context (svm_fit : column → column → result Model).
Context (svm_predict : Model → column → result (list Z)).
Context (np_sum_ne : column → column → result Z).
Implicit Types ns : gmap string (@value Model).

Lemma py_bind_Ok {A B} (m : py A) (f : A → py B) ns (b : B) ns' :
  (m ≫= f) ns = Ok (b, ns') ↔ ∃ a ns1, m ns = Ok (a, ns1) ∧ f a ns1 = Ok (b, ns').
Proof.
  unfold mbind, py_bind. destruct (m ns) as [[a ns1]|e]; split.
  - intros Hf. by exists a, ns1.
  - by intros (? & ? & [= <- <-] & ?).
  - done.
  - by intros (? & ? & ? & _).
Qed.

Lemma py_bind_Raise {A B} (m : py A) (f : A → py B) ns e :
  m ns = Raise e → (m ≫= f) ns = Raise e.
Proof. unfold mbind, py_bind. by intros ->. Qed.

Lemma py_bind_step {A B} (m : py A) (f : A → py B) ns a ns1 :
  m ns = Ok (a, ns1) → (m ≫= f) ns = f a ns1.
Proof. unfold mbind, py_bind. by intros ->. Qed.

Lemma keeps_ret {A} name (a : A) : keeps (Model:=Model) name (mret a).
Proof. by intros ns a' ns' [= <- <-]. Qed.

Lemma keeps_bind {A B} name (m : py A) (f : A → py B) :
  keeps name m → (∀ a, keeps name (f a)) → keeps (Model:=Model) name (m ≫= f).
Proof.
  intros Hm Hf ns b ns' (a & ns1 & H1 & H2)%py_bind_Ok.
  rewrite (Hf a _ _ _ H2). by eapply Hm.
Qed.

Lemma keeps_load name n : keeps (Model:=Model) name (load n).
Proof. intros ns a ns'. unfold load. destruct (ns !! n); [|done]. by intros [= <- <-]. Qed.

Lemma keeps_lift {A} name (r : result A) : keeps (Model:=Model) name (lift r).
Proof. intros ns a ns'. unfold lift. destruct r; [|done]. by intros [= <- <-]. Qed.

Lemma keeps_store name n v : n ≠ name → keeps (Model:=Model) name (store n v).
Proof. intros Hne ns a ns' [= <- <-]. by rewrite lookup_insert_ne. Qed.

Lemma keeps_load_slice name (sl : Z → column → column) n bound :
  keeps (Model:=Model) name
    (v ← load n; t ← load bound; c ← lift (as_column v); k ← lift (as_int t);
     mret (sl k c)).
Proof.
  repeat (apply keeps_bind; [first [apply keeps_load | apply keeps_lift]|intros ?]).
  apply keeps_ret.
Qed.

(** The cells up to the fit bind [svm], [clf], [y], [X] and [t_size] and no
    other name. *)
Lemma cells_before_predict_keep name :
  name ∉ ["svm"; "clf"; "y"; "X"; "t_size"] →
  keeps name (cells_before_predict svm_fit).
Proof using Type.
  intros Hname.
  assert (Hne : ∀ n, n ∈ ["svm"; "clf"; "y"; "X"; "t_size"] → n ≠ name)
    by (intros n Hn ->; done).
  unfold cells_before_predict, cell_svc, cell_labels_features, cell_t_size, cell_fit,
    load_slice_to.
  repeat first
    [ apply keeps_load | apply keeps_lift | apply keeps_ret
    | apply keeps_load_slice
    | apply keeps_store, Hne; by repeat first [apply list_elem_of_here | apply list_elem_of_further]
    | apply keeps_bind; [|intros ?] ].
Qed.

Lemma cell_fit_binds_clf ns (u : unit) ns' :
  cell_fit svm_fit ns = Ok (u, ns') →
  ∃ model, ns' !! "clf" = Some (VEstimator (Some model)).
Proof.
  unfold cell_fit. intros H.
  repeat (apply py_bind_Ok in H as (? & ? & _ & H)).
  injection H as _ <-. eexists. apply lookup_insert_eq.
Qed.

Lemma cell_predict_unbound_x ns fitted :
  ns !! "clf" = Some (VEstimator fitted) → ns !! "x" = None →
  cell_predict svm_predict ns = Raise (NameError "x").
Proof.
  intros Hclf Hx. unfold cell_predict.
  rewrite (py_bind_step (load "clf") _ ns (VEstimator fitted) ns)
    by (unfold load; by rewrite Hclf).
  rewrite (py_bind_step _ _ ns fitted ns) by done.
  apply py_bind_Raise. unfold load_slice_from.
  apply py_bind_Raise. unfold load. by rewrite Hx.
Qed.

Lemma cell_predict_raises ns :
  ns !! "x" = None → ∃ e, cell_predict svm_predict ns = Raise e.
Proof.
  intros Hx. destruct (ns !! "clf") as [v|] eqn:Hclf.
  - destruct v as [n|t|c|fitted|name];
      try (exists TypeError; unfold cell_predict;
           erewrite (py_bind_step (load "clf")) by (unfold load; by rewrite Hclf);
           by apply py_bind_Raise).
    exists (NameError "x"). by eapply cell_predict_unbound_x.
  - exists (NameError "clf"). unfold cell_predict.
    apply py_bind_Raise. unfold load. by rewrite Hclf.
Qed.

End ClassifierFacts.

Lemma x_not_global : "x" ∉ globals_before_classifier.
Proof.
  unfold globals_before_classifier. rewrite elem_of_list_to_set.
  intros Hx. repeat (apply elem_of_cons in Hx as [Hx|Hx]; [discriminate Hx|]).
  by apply elem_of_nil in Hx.
Qed.

(** C9: no cell above the classifier part binds the lower-case name [x], and
    in every session where [x] is unbound, whatever the data and whatever the
    classifier does, the run of the classifier part never reaches its end:
    once the cells up to the fit have run, the prediction cell raises the
    NameError of [x] instead of binding [predict]; run in any session
    without [x], the prediction cell raises and returns no prediction. *)
Theorem predict_raises_name_error {Model : Type}
    (svm_fit : column → column → result Model)
    (svm_predict : Model → column → result (list Z))
    (np_sum_ne : column → column → result Z)
    (ns : gmap string (@value Model)) :
  ns !! "x" = None →
  ("x" ∉ globals_before_classifier) ∧
  (∃ e, pipeline svm_fit svm_predict np_sum_ne ns = Raise e) ∧
  (∀ ns', cells_before_predict svm_fit ns = Ok (tt, ns') →
     ns' !! "x" = None ∧
     cell_predict svm_predict ns' = Raise (NameError "x") ∧
     pipeline svm_fit svm_predict np_sum_ne ns = Raise (NameError "x")) ∧
  (∀ (any : gmap string (@value Model)) fitted,
     any !! "clf" = Some (VEstimator fitted) → any !! "x" = None →
     cell_predict svm_predict any = Raise (NameError "x")) ∧
  (∀ any : gmap string (@value Model),
     any !! "x" = None → ∃ e, cell_predict svm_predict any = Raise e).
Proof.
  intros Hx.
  assert (Hrun : ∀ ns', cells_before_predict svm_fit ns = Ok (tt, ns') →
            ns' !! "x" = None ∧
            cell_predict svm_predict ns' = Raise (NameError "x") ∧
            pipeline svm_fit svm_predict np_sum_ne ns = Raise (NameError "x")).
  { intros ns' Hcells.
    assert (Hx' : ns' !! "x" = None).
    { rewrite <- Hx. eapply (cells_before_predict_keep svm_fit "x"); [|exact Hcells].
      intros Hin. repeat (apply elem_of_cons in Hin as [Hin|Hin]; [discriminate Hin|]).
      by apply elem_of_nil in Hin. }
    assert (Hclf : ∃ model, ns' !! "clf" = Some (VEstimator (Some model))).
    { pose proof Hcells as H. unfold cells_before_predict in H.
      do 3 (apply py_bind_Ok in H as (? & ? & _ & H)).
      by eapply cell_fit_binds_clf. }
    destruct Hclf as [model Hclf].
    pose proof (cell_predict_unbound_x svm_predict ns' _ Hclf Hx') as Hp.
    split; [done|]. split; [done|].
    unfold pipeline. rewrite (py_bind_step _ _ _ _ _ Hcells).
    by apply py_bind_Raise. }
  split; [apply x_not_global|]. split; [|split; [done|]].
  - destruct (cells_before_predict svm_fit ns) as [[[] ns']|e] eqn:Hcells.
    + exists (NameError "x"). by destruct (Hrun ns' eq_refl) as (_ & _ & ?).
    + exists e. unfold pipeline. by apply py_bind_Raise.
  - split; [intros any fitted; apply cell_predict_unbound_x|].
    intros any. apply cell_predict_raises.
Qed.

(** C10: the training half of the split is an index split at 70000 of the
    feature matrix [X] and the label vector [y]: run in a session that
    holds the two catalogs and the imports, the cells up to the fit hand the
    fit exactly the rows 0 to 69999 of [X] and of [y] (all of them when
    there are fewer).  The evaluation half is never taken: line 428 slices
    the unbound lower-case [x] instead of [X], so the prediction cell raises
    the NameError of [x] whatever the classifier is, [predict] stays
    unbound, the comparison of line 437 raises the NameError of [predict]
    before it slices [y[t_size:]], and the run of the classifier part stops
    at the prediction: no row from 70000 on is consumed. *)
Theorem split_evaluation_unbound_x {Model : Type}
    (svm_fit : column → column → result Model)
    (svm_predict : Model → column → result (list Z))
    (np_sum_ne : column → column → result Z)
    (ns : gmap string (@value Model)) (col np : @value Model)
    (specObj photoPos : table) (labels : list Z) (features : column) (model : Model) :
  ns !! "x" = None → ns !! "predict" = None →
  ns !! "Column" = Some col → ns !! "np" = Some np →
  ns !! "specObj" = Some (VTable specObj) →
  ns !! "photoPos" = Some (VTable photoPos) →
  y specObj = Ok labels → X photoPos = Ok features →
  svm_fit (column_slice_to t_size features) (IntColumn (slice_to t_size labels)) = Ok model →
  ∃ ns',
    cells_before_predict svm_fit ns = Ok (tt, ns') ∧
    (ns' !! "X" = Some (VColumn features) ∧
     ns' !! "y" = Some (VColumn (IntColumn labels)) ∧
     ns' !! "t_size" = Some (VInt 70000) ∧
     ns' !! "clf" = Some (VEstimator (Some model))) ∧
    ((∀ i, (Z.of_nat i < 70000)%Z → slice_to t_size labels !! i = labels !! i) ∧
     (∀ i, (70000 ≤ Z.of_nat i)%Z → slice_to t_size labels !! i = None) ∧
     (∀ m, features = VecColumn m →
        column_slice_to t_size features
        = VecColumn (Matrix (ncols m) (slice_to t_size (rows m))) ∧
        (∀ i, (Z.of_nat i < 70000)%Z → slice_to t_size (rows m) !! i = rows m !! i) ∧
        (∀ i, (70000 ≤ Z.of_nat i)%Z → slice_to t_size (rows m) !! i = None))) ∧
    (ns' !! "x" = None ∧ ns' !! "predict" = None) ∧
    cell_predict svm_predict ns' = Raise (NameError "x") ∧
    cell_non_matching np_sum_ne ns' = Raise (NameError "predict") ∧
    pipeline svm_fit svm_predict np_sum_ne ns = Raise (NameError "x").
Proof.
  intros Hx Hpredict Hcol Hnp Hspec Hphoto Hy HX Hfit.
  assert (Hslice : ∀ (A : Type) (l : list A),
            (∀ i, (Z.of_nat i < 70000)%Z → slice_to t_size l !! i = l !! i) ∧
            (∀ i, (70000 ≤ Z.of_nat i)%Z → slice_to t_size l !! i = None)).
  { intros A l. unfold slice_to, slice_bound, t_size. rewrite decide_False by lia.
    split; intros i Hi.
    - destruct (decide (i < length l)) as [Hlt|Hge].
      + apply lookup_take_lt. lia.
      + rewrite (lookup_ge_None_2 l i) by lia. apply lookup_ge_None_2.
        rewrite length_take. lia.
    - apply lookup_ge_None_2. rewrite length_take. lia. }
  eexists. split.
  { unfold cells_before_predict, cell_svc, cell_labels_features, cell_t_size, cell_fit,
      load_slice_to.
    repeat (unfold mbind, py_bind, load, store, lift; simpl;
            rewrite ?lookup_insert_eq, ?lookup_insert_ne by done;
            rewrite ?Hcol, ?Hspec, ?Hphoto, ?Hy, ?HX; simpl).
    change (column_slice (λ A, slice_to t_size) features)
      with (column_slice_to t_size features).
    rewrite Hfit. reflexivity. }
  assert (Hx' : (<["clf" := VEstimator (Some model)]>
                   (<["t_size" := VInt t_size]>
                      (<["X" := VColumn features]>
                         (<["y" := VColumn (IntColumn labels)]>
                            (<["clf" := VEstimator None]>
                               (<["svm" := VOpaque "sklearn.svm"]> ns))))))
                !! "x" = None)
    by (by rewrite !lookup_insert_ne by done).
  assert (Hpredict' : (<["clf" := VEstimator (Some model)]>
                   (<["t_size" := VInt t_size]>
                      (<["X" := VColumn features]>
                         (<["y" := VColumn (IntColumn labels)]>
                            (<["clf" := VEstimator None]>
                               (<["svm" := VOpaque "sklearn.svm"]> ns))))))
                !! "predict" = None)
    by (by rewrite !lookup_insert_ne by done).
  split; [|split; [|split; [done|]]].
  - repeat split; by rewrite ?lookup_insert_eq, ?lookup_insert_ne, ?lookup_insert_eq by done.
  - split; [apply Hslice|]. split; [apply Hslice|].
    intros m ->. split; [done|]. apply Hslice.
  - assert (Hcell : cell_predict svm_predict
                      (<["clf" := VEstimator (Some model)]>
                         (<["t_size" := VInt t_size]>
                            (<["X" := VColumn features]>
                               (<["y" := VColumn (IntColumn labels)]>
                                  (<["clf" := VEstimator None]>
                                     (<["svm" := VOpaque "sklearn.svm"]> ns))))))
                    = Raise (NameError "x")).
    { eapply cell_predict_unbound_x; [apply lookup_insert_eq|done]. }
    split; [done|]. split.
    + unfold cell_non_matching.
      erewrite (py_bind_step (load "np"))
        by (unfold load; by rewrite !lookup_insert_ne, Hnp by done).
      apply py_bind_Raise. unfold load. by rewrite Hpredict'.
    + unfold pipeline. erewrite py_bind_step; [by apply py_bind_Raise|].
      unfold cells_before_predict, cell_svc, cell_labels_features, cell_t_size, cell_fit,
        load_slice_to.
      repeat (unfold mbind, py_bind, load, store, lift; simpl;
              rewrite ?lookup_insert_eq, ?lookup_insert_ne by done;
              rewrite ?Hcol, ?Hspec, ?Hphoto, ?Hy, ?HX; simpl).
      change (column_slice (λ A, slice_to t_size) features)
        with (column_slice_to t_size features).
      rewrite Hfit. reflexivity.
Qed.

(** A session in which the cells above the classifier part have bound the
    two catalogs and the imports, with a classifier that accepts any data
    and predicts nothing. *)
Lemma predict_raises_name_error_witness :
  let ns : gmap string (@value unit) :=
    <["Column" := VOpaque "astropy.table.Column"]>
      (<["np" := VOpaque "numpy"]>
         (<["specObj" := VTable (Table 2 {["CLASS" := StrColumn ["STAR"; "QSO"]]})]>
            {["photoPos" := VTable (Table 2 {["PSFMAG" := VecColumn (Matrix 5
                [[19; 18.5; 18; 17.75; 17.5]; [19; 18.5; 18; 18; 17.5]]%float)]})]})) in
  let svm_fit := λ _ _ : column, Ok tt in
  let svm_predict := λ (_ : unit) (_ : column), Ok ([] : list Z) in
  let np_sum_ne := λ _ _ : column, Ok 0%Z in
  ("x" ∉ globals_before_classifier) ∧
  (∃ e, pipeline svm_fit svm_predict np_sum_ne ns = Raise e) ∧
  (∀ ns', cells_before_predict svm_fit ns = Ok (tt, ns') →
     ns' !! "x" = None ∧
     cell_predict svm_predict ns' = Raise (NameError "x") ∧
     pipeline svm_fit svm_predict np_sum_ne ns = Raise (NameError "x")) ∧
  (∀ (any : gmap string (@value unit)) fitted,
     any !! "clf" = Some (VEstimator fitted) → any !! "x" = None →
     cell_predict svm_predict any = Raise (NameError "x")) ∧
  (∀ any : gmap string (@value unit),
     any !! "x" = None → ∃ e, cell_predict svm_predict any = Raise e).
Proof.
  cbv zeta.
  apply (predict_raises_name_error (Model:=unit)).
  reflexivity.
Defined.

(** The split on a session that holds two sources and the imports, with a
    classifier that accepts any data and would label any rows: the fit gets
    both rows, and the evaluation stops at the unbound [x]. *)
Lemma split_evaluation_unbound_x_witness :
  let specObj := Table 2 {["CLASS" := StrColumn ["STAR"; "QSO"]]} in
  let PSFMAG := Matrix 5 [[19; 18.5; 18; 17.75; 17.5]; [19; 18.5; 18; 18; 17.5]]%float in
  let photoPos := Table 2 {["PSFMAG" := VecColumn PSFMAG]} in
  let ns : gmap string (@value unit) :=
    <["Column" := VOpaque "astropy.table.Column"]>
      (<["np" := VOpaque "numpy"]>
         (<["specObj" := VTable specObj]> {["photoPos" := VTable photoPos]})) in
  let svm_fit := λ _ _ : column, Ok tt in
  let svm_predict := λ (_ : unit) (c : column), Ok (replicate (column_len c) 1%Z) in
  let np_sum_ne := λ _ _ : column, Ok 0%Z in
  ∃ ns',
    cells_before_predict svm_fit ns = Ok (tt, ns') ∧
    (ns' !! "X" = Some (VColumn (VecColumn PSFMAG)) ∧
     ns' !! "y" = Some (VColumn (IntColumn [1; 0]%Z)) ∧
     ns' !! "t_size" = Some (VInt 70000) ∧
     ns' !! "clf" = Some (VEstimator (Some tt))) ∧
    (ns' !! "x" = None ∧ ns' !! "predict" = None) ∧
    cell_predict svm_predict ns' = Raise (NameError "x") ∧
    cell_non_matching np_sum_ne ns' = Raise (NameError "predict") ∧
    pipeline svm_fit svm_predict np_sum_ne ns = Raise (NameError "x").
Proof.
  cbv zeta.
  destruct (split_evaluation_unbound_x (Model:=unit)
              (λ _ _, Ok tt) (λ _ c, Ok (replicate (column_len c) 1%Z)) (λ _ _, Ok 0%Z)
              (<["Column" := VOpaque "astropy.table.Column"]>
                 (<["np" := VOpaque "numpy"]>
                    (<["specObj" := VTable (Table 2 {["CLASS" := StrColumn ["STAR"; "QSO"]]})]>
                       {["photoPos" := VTable (Table 2 {["PSFMAG" := VecColumn (Matrix 5
                          [[19; 18.5; 18; 17.75; 17.5]; [19; 18.5; 18; 18; 17.5]]%float)]})]})))
              (VOpaque "astropy.table.Column") (VOpaque "numpy")
              (Table 2 {["CLASS" := StrColumn ["STAR"; "QSO"]]})
              (Table 2 {["PSFMAG" := VecColumn (Matrix 5
                 [[19; 18.5; 18; 17.75; 17.5]; [19; 18.5; 18; 18; 17.5]]%float)]})
              [1; 0]%Z
              (VecColumn (Matrix 5
                 [[19; 18.5; 18; 17.75; 17.5]; [19; 18.5; 18; 18; 17.5]]%float))
              tt)
    as (ns' & Hcells & Hbound & _ & Hunbound & Hpredict & Hcompare & Hrun);
    try reflexivity.
  exists ns'. repeat split; first [exact Hcells | apply Hbound | apply Hunbound
                                  | exact Hpredict | exact Hcompare | exact Hrun].
Defined.

(** ** The notebook on small catalogs *)

Example color_cut_two_sources :
  color_cut (Table 2 {["PSFMAG" := VecColumn (Matrix 5
    [[19; 18.5; 18; 17.75; 17.5]; [19; 18.5; 18; 18; 17.5]]%float)]})
  = Ok [true; false].
Proof. vm_compute. reflexivity. Qed.

Example color_cut_missing_magnitude :
  color_cut (Table 2 {["PSFMAG" := VecColumn (Matrix 5
    [[19; 18.5; nan; 17.75; 17.5]; [19; 18.5; 18; 17.75; 17.5]]%float)]})
  = Ok [false; true].
Proof. vm_compute. reflexivity. Qed.

Example color_cut_narrow_column :
  color_cut (Table 1 {["PSFMAG" := VecColumn (Matrix 3 [[19; 18.5; 18]]%float)]})
  = Raise IndexError.
Proof. vm_compute. reflexivity. Qed.

Example coadd_short_mask :
  coadd (Matrix 2 [[1; 2]; [3; 4]; [5; 6]]%float) [true; false] = Raise TypeError.
Proof. vm_compute. reflexivity. Qed.

Example slices_of_five :
  slice_to 3 [10; 20; 30; 40; 50] = [10; 20; 30] ∧
  slice_from 3 [10; 20; 30; 40; 50] = [40; 50] ∧
  slice_to (-1) [10; 20; 30; 40; 50] = [10; 20; 30; 40] ∧
  slice_from 7 [10; 20; 30; 40; 50] = [].
Proof. repeat split. Qed.

Example notebook_run_stops_at_predict :
  pipeline (Model:=unit) (λ _ _, Ok tt) (λ _ _, Ok []) (λ _ _, Ok 0%Z)
    (<["Column" := VOpaque "astropy.table.Column"]>
      (<["np" := VOpaque "numpy"]>
         (<["specObj" := VTable (Table 2 {["CLASS" := StrColumn ["STAR"; "QSO"]]})]>
            {["photoPos" := VTable (Table 2 {["PSFMAG" := VecColumn (Matrix 5
                [[19; 18.5; 18; 17.75; 17.5]; [19; 18.5; 18; 18; 17.5]]%float)]})]})))
  = Raise (NameError "x").
Proof. vm_compute. reflexivity. Qed.

(** * Further properties of the notebook's cells *)

(** ** Classes and their counts (lines 171-196) *)

Lemma count_true_cons (b : bool) (mask : list bool) :
  count_true (b :: mask) = (if b then 1 else 0) + count_true mask.
Proof.
  unfold count_true. destruct b.
  - by rewrite filter_cons_True.
  - by rewrite filter_cons_False.
Qed.

Lemma sum_indicator (x : string) (u : list string) :
  NoDup u → x ∈ u →
  sum_list_with (λ c, if bool_decide (x = c) then 1 else 0) u = 1.
Proof.
  induction 1 as [|c u Hc Hu IH]; intros Hx; [by apply elem_of_nil in Hx|].
  simpl. case_bool_decide as Hxc.
  - subst c. assert (Hz : sum_list_with (λ c, if bool_decide (x = c) then 1 else 0) u = 0).
    { clear IH Hu Hx. induction u as [|d u IHu]; [done|]. simpl.
      rewrite bool_decide_false by (intros ->; apply Hc; left).
      apply IHu. intros Hin. apply Hc. by right. }
    lia.
  - apply elem_of_cons in Hx as [?|Hx]; [done|]. by rewrite IH.
Qed.

Lemma sum_class_counts (u spec_class : list string) :
  NoDup u → (∀ c, c ∈ spec_class → c ∈ u) →
  sum_list_with (λ cls, count_true (eq_mask cls spec_class)) u = length spec_class.
Proof.
  intros Hu. induction spec_class as [|x l IH]; intros Hin.
  - clear Hu Hin. induction u as [|c u IHu]; [done|]. exact IHu.
  - assert (Hsplit : ∀ v : list string,
      sum_list_with (λ cls, count_true (eq_mask cls (x :: l))) v
      = sum_list_with (λ c, if bool_decide (x = c) then 1 else 0) v
        + sum_list_with (λ cls, count_true (eq_mask cls l)) v).
    { induction v as [|c v IHv]; [done|].
      pose proof (count_true_cons (bool_decide (x = c)) (eq_mask c l)) as Hc.
      change (bool_decide (x = c) :: eq_mask c l) with (eq_mask c (x :: l)) in Hc.
      change (count_true (eq_mask c (x :: l))
              + sum_list_with (λ cls, count_true (eq_mask cls (x :: l))) v
              = (if bool_decide (x = c) then 1 else 0)
                + sum_list_with (λ c, if bool_decide (x = c) then 1 else 0) v
                + (count_true (eq_mask c l)
                   + sum_list_with (λ cls, count_true (eq_mask cls l)) v)).
      rewrite IHv, Hc. lia. }
    rewrite Hsplit, sum_indicator, IH; [done| |done|].
    + intros c Hc. apply Hin. by right.
    + apply Hin. left.
Qed.

Lemma count_true_eq_mask_pos (cls : string) (spec_class : list string) :
  cls ∈ spec_class → 0 < count_true (eq_mask cls spec_class).
Proof.
  induction spec_class as [|x l IH]; intros Hin; [by apply elem_of_nil in Hin|].
  change (eq_mask cls (x :: l)) with (bool_decide (x = cls) :: eq_mask cls l).
  rewrite count_true_cons.
  apply elem_of_cons in Hin as [->|Hin]; [rewrite bool_decide_true by done; simpl; lia|].
  specialize (IH Hin). lia.
Qed.

#[local] Instance string_le_total : Total string_le.
Proof. intros a b. apply String.leb_total. Qed.

(** The class names listed by [np.unique] are the classes that occur, each
    once and in increasing order; every printed count is at least 1 and the
    printed counts add up to the number of rows. *)
Theorem class_counts_cover_rows (spec_class : list string) :
  (class_counts spec_class).*1 = spec_classes spec_class ∧
  NoDup (spec_classes spec_class) ∧
  Sorted string_le (spec_classes spec_class) ∧
  (∀ cls, cls ∈ spec_classes spec_class ↔ cls ∈ spec_class) ∧
  Forall (λ line, 0 < line.2) (class_counts spec_class) ∧
  sum_list (class_counts spec_class).*2 = length spec_class.
Proof.
  assert (Hperm : spec_classes spec_class ≡ₚ remove_dups spec_class)
    by apply merge_sort_Permutation.
  assert (Hnd : NoDup (spec_classes spec_class))
    by (rewrite Hperm; apply NoDup_remove_dups).
  assert (Hin : ∀ cls, cls ∈ spec_classes spec_class ↔ cls ∈ spec_class)
    by (intros cls; rewrite Hperm; apply elem_of_remove_dups).
  unfold class_counts. split; [|split; [done|split; [|split; [done|split]]]].
  - rewrite <- list_fmap_compose. apply list_fmap_id.
  - apply (Sorted_merge_sort string_le).
  - apply Forall_fmap, Forall_forall. intros cls Hcls. simpl.
    by apply count_true_eq_mask_pos, Hin.
  - rewrite <- list_fmap_compose. simpl.
    change (sum_list ((λ cls, count_true (eq_mask cls spec_class)) <$> spec_classes spec_class)
            = length spec_class).
    rewrite <- (sum_class_counts (spec_classes spec_class) spec_class Hnd);
      [|by intros c; apply Hin].
    generalize (spec_classes spec_class). intros u.
    induction u as [|c u IHu]; [done|]. cbn. f_equal. exact IHu.
Qed.

(** The masks [spec_class == cls] of two different classes share no row, and
    every row is in the mask of its own class, which is one of the classes
    listed. *)
Theorem class_masks_partition (spec_class : list string) :
  (∀ c1 c2, c1 ≠ c2 → mask_disjoint (eq_mask c1 spec_class) (eq_mask c2 spec_class)) ∧
  (∀ cls, length (eq_mask cls spec_class) = length spec_class) ∧
  (∀ i cls, spec_class !! i = Some cls →
     eq_mask cls spec_class !! i = Some true ∧ cls ∈ spec_classes spec_class) ∧
  (∀ i cls, eq_mask cls spec_class !! i = Some true → spec_class !! i = Some cls).
Proof.
  unfold eq_mask. split; [|split; [|split]].
  - intros c1 c2 Hne i [H1 H2]. rewrite list_lookup_fmap in H1, H2.
    destruct (spec_class !! i) as [c|]; simplify_eq/=.
    apply bool_decide_eq_true in H1, H2. congruence.
  - intros cls. apply length_fmap.
  - intros i cls Hi. rewrite list_lookup_fmap, Hi. simpl.
    rewrite bool_decide_true by done. split; [done|].
    unfold spec_classes, np_unique. rewrite merge_sort_Permutation.
    apply elem_of_remove_dups. by eapply list_elem_of_lookup_2.
  - intros i cls Hi. rewrite list_lookup_fmap in Hi.
    destruct (spec_class !! i) as [c|]; simplify_eq/=.
    apply bool_decide_eq_true in Hi. by subst.
Qed.

Example class_counts_of_four :
  class_counts ["STAR"; "QSO"; "STAR"; "GALAXY"] = [("GALAXY", 1); ("QSO", 1); ("STAR", 2)].
Proof. vm_compute. reflexivity. Qed.

(** ** One-dimensional selections (lines 193, 277, 317-321) *)

Lemma select_eq_mask_filter {A} (cls : string) (spec_class : list string) (a : list A) :
  select (eq_mask cls spec_class) a
  = (filter (λ row, row.1 = cls) (zip spec_class a)).*2.
Proof.
  revert a. induction spec_class as [|c l IH]; intros [|x a]; simpl; [done..|].
  rewrite filter_cons. simpl.
  case_bool_decide; case_decide; simplify_eq/=; try done; by rewrite IH.
Qed.

(** Indexing a column by [spec_class == cls] gives, in their order, the
    entries of exactly the rows whose class is [cls], as many as the count of
    that class; an array of another length than the class column is
    refused. *)
Theorem select_by_class {A : Type} (cls : string) (spec_class : list string) (a : list A) :
  (length spec_class = length a →
   getitem_mask a (eq_mask cls spec_class)
     = Ok (filter (λ row, row.1 = cls) (zip spec_class a)).*2 ∧
   length (select (eq_mask cls spec_class) a) = count_true (eq_mask cls spec_class)) ∧
  (length spec_class ≠ length a →
   getitem_mask a (eq_mask cls spec_class) = Raise IndexError).
Proof.
  unfold getitem_mask. split; intros Hlen.
  - rewrite decide_True by (unfold eq_mask; by rewrite length_fmap).
    split; [by rewrite select_eq_mask_filter|].
    apply length_select. unfold eq_mask. by rewrite length_fmap.
  - rewrite decide_False; [done|]. unfold eq_mask. by rewrite length_fmap.
Qed.

Lemma select_nil_r {A} (mask : list bool) : select mask (@nil A) = [].
Proof. by destruct mask. Qed.

Lemma select_mask_and {A} (a b : list bool) (l : list A) :
  select (mask_and a b) l = select (select a b) (select a l).
Proof.
  unfold mask_and. revert a b. induction l as [|x l IH]; intros a b.
  - by rewrite !select_nil_r.
  - destruct a as [|[] a], b as [|[] b]; simpl; rewrite ?IH; try done;
      first [by destruct (select a l) | by destruct a].
Qed.

Lemma select_sublist {A} (mask : list bool) (l : list A) : select mask l `sublist_of` l.
Proof.
  revert mask. induction l as [|x l IH]; intros [|[] mask]; simpl;
    try apply sublist_nil_l; by constructor.
Qed.

(** The stars in the colour box (line 320) are the stars (line 317)
    filtered by the colour cut restricted to the stars: selecting by
    [star & color_cut] is selecting by [star] and then by [color_cut[star]],
    so the second curve of the figure is a sub-sequence of the first. *)
Theorem select_conjunction {A : Type} (star color_cut : list bool) (a : list A) :
  length star = length a → length color_cut = length a →
  ∃ stars boxed cut_of_stars,
    getitem_mask a star = Ok stars ∧
    getitem_mask a (mask_and star color_cut) = Ok boxed ∧
    getitem_mask color_cut star = Ok cut_of_stars ∧
    getitem_mask stars cut_of_stars = Ok boxed ∧
    boxed `sublist_of` stars ∧
    length boxed = count_true (mask_and star color_cut).
Proof.
  intros Hs Hc. unfold getitem_mask.
  assert (Hand : length (mask_and star color_cut) = length a).
  { unfold mask_and. rewrite length_zip_with. lia. }
  rewrite !decide_True by congruence.
  eexists _, _, _. split; [done|]. split; [done|]. split; [done|].
  assert (Hlen : length (select star color_cut) = length (select star a)).
  { rewrite !length_select by congruence. done. }
  rewrite decide_True by done. rewrite select_mask_and.
  split; [done|]. split; [apply select_sublist|].
  rewrite <- select_mask_and. by apply length_select.
Qed.

(** [select_conjunction] on five sources. *)
Lemma select_conjunction_witness :
  ∃ stars boxed cut_of_stars,
    getitem_mask [10; 20; 30; 40; 50] [true; false; true; true; false] = Ok stars ∧
    getitem_mask [10; 20; 30; 40; 50]
      (mask_and [true; false; true; true; false] [true; true; false; true; false]) = Ok boxed ∧
    getitem_mask [true; true; false; true; false] [true; false; true; true; false]
      = Ok cut_of_stars ∧
    getitem_mask stars cut_of_stars = Ok boxed ∧
    boxed `sublist_of` stars ∧
    length boxed
      = count_true (mask_and [true; false; true; true; false] [true; true; false; true; false]).
Proof.
  apply (select_conjunction [true; false; true; true; false]
           [true; true; false; true; false] [10; 20; 30; 40; 50]); reflexivity.
Defined.

(** ** The masked reads of flux and ivar (lines 346-349) *)

(** Read with the same mask, two datasets with the same number of rows stay
    row-aligned: both subsets have as many rows as the mask has true
    entries, and row k of each comes from the same row of its dataset, the
    k-th true index of the mask. *)
Theorem masked_reads_stay_aligned {A B : Type}
    (flux : matrix A) (ivar : matrix B) (color_cut : list bool) :
  nrows flux = nrows ivar → length color_cut = nrows flux →
  ∃ cut_flux cut_ivar,
    color_cut_flux flux color_cut = Ok cut_flux ∧
    color_cut_flux ivar color_cut = Ok cut_ivar ∧
    nrows cut_flux = count_true color_cut ∧
    nrows cut_ivar = count_true color_cut ∧
    length (true_indices color_cut) = count_true color_cut ∧
    ∀ k i, true_indices color_cut !! k = Some i →
      rows cut_flux !! k = rows flux !! i ∧ rows cut_ivar !! k = rows ivar !! i.
Proof.
  intros Hrows Hlen.
  assert (Hlen' : length color_cut = nrows ivar) by congruence.
  rewrite !color_cut_flux_eq by done. eexists _, _.
  split; [done|]. split; [done|]. unfold nrows in *. simpl.
  pose proof (select_true_indices color_cut (rows flux) Hlen) as Hf.
  pose proof (select_true_indices color_cut (rows ivar) Hlen') as Hi.
  split; [by apply length_select|]. split; [by apply length_select|]. split.
  - apply (f_equal length) in Hf. rewrite !length_fmap in Hf.
    rewrite <- Hf. by apply length_select.
  - intros k i Hk.
    apply (f_equal (.!! k)) in Hf. rewrite !list_lookup_fmap, Hk in Hf.
    apply (f_equal (.!! k)) in Hi. rewrite !list_lookup_fmap, Hk in Hi.
    simpl in Hf, Hi.
    destruct (select color_cut (rows flux) !! k), (select color_cut (rows ivar) !! k);
      simplify_eq/=; done.
Qed.

(** [masked_reads_stay_aligned] on three spectra of two pixels. *)
Lemma masked_reads_stay_aligned_witness :
  ∃ cut_flux cut_ivar,
    color_cut_flux (Matrix 2 [[1; 2]; [3; 4]; [5; 6]]%float) [true; false; true] = Ok cut_flux ∧
    color_cut_flux (Matrix 2 [[1; 0]; [1; 1]; [0; 1]]%float) [true; false; true] = Ok cut_ivar ∧
    nrows cut_flux = count_true [true; false; true] ∧
    nrows cut_ivar = count_true [true; false; true] ∧
    length (true_indices [true; false; true]) = count_true [true; false; true] ∧
    ∀ k i, true_indices [true; false; true] !! k = Some i →
      rows cut_flux !! k = [[1; 2]; [3; 4]; [5; 6]]%float !! i ∧
      rows cut_ivar !! k = [[1; 0]; [1; 1]; [0; 1]]%float !! i.
Proof.
  apply (masked_reads_stay_aligned (Matrix 2 [[1; 2]; [3; 4]; [5; 6]]%float)
           (Matrix 2 [[1; 0]; [1; 1]; [0; 1]]%float) [true; false; true]); reflexivity.
Defined.

(** ** What the co-addition reads (line 360) *)

Lemma select_ext {A} (mask : list bool) (l k : list A) :
  length l = length k →
  (∀ i, mask !! i = Some true → l !! i = k !! i) →
  select mask l = select mask k.
Proof.
  revert l k. induction mask as [|b mask IH]; intros [|x l] [|z k] Hlen Hsame;
    simplify_eq/=; try done.
  assert (Htail : select mask l = select mask k).
  { apply IH; [done|]. intros i Hi. apply (Hsame (S i) Hi). }
  destruct b; [|done]. specialize (Hsame 0 eq_refl). simpl in Hsame. congruence.
Qed.

(** The co-added spectrum depends on the selected rows only: two flux
    arrays of the same shape that agree on every row where the mask is true
    have the same co-addition, whatever the rows outside the cut hold. *)
Theorem coadd_ignores_unselected_rows {T : Type} (zero : T) (add : T → T → T)
    (flux flux' : matrix T) (color_cut : list bool) :
  ncols flux = ncols flux' → nrows flux = nrows flux' →
  (∀ i, color_cut !! i = Some true → rows flux !! i = rows flux' !! i) →
  color_cut_coadd zero add flux color_cut = color_cut_coadd zero add flux' color_cut.
Proof.
  intros Hc Hr Hsame. unfold color_cut_coadd, color_cut_flux.
  rewrite <- Hr, <- Hc. case_decide; [|done]. simpl.
  by rewrite (select_ext color_cut (rows flux) (rows flux')).
Qed.

(** [coadd_ignores_unselected_rows] on two arrays that differ in the row
    outside the cut, one of them by a NaN. *)
Lemma coadd_ignores_unselected_rows_witness :
  coadd (Matrix 2 [[1; 2]; [3; 4]; [5; 6]]%float) [true; false; true]
  = coadd (Matrix 2 [[1; 2]; [nan; 9]; [5; 6]]%float) [true; false; true].
Proof.
  apply (coadd_ignores_unselected_rows 0%float PrimFloat.add
           (Matrix 2 [[1; 2]; [3; 4]; [5; 6]]%float)
           (Matrix 2 [[1; 2]; [nan; 9]; [5; 6]]%float) [true; false; true]).
  - reflexivity.
  - reflexivity.
  - intros [|[|[|i]]] Hi; simpl in *; try done.
Defined.

(** ** NaN and bad pixels (lines 111 and 360) *)

Lemma nan_add (a b : float) :
  is_nan a = true ∨ is_nan b = true → is_nan (a + b)%float = true.
Proof.
  intros Hab. apply is_nan_Prim2SF. rewrite FloatAxioms.add_spec. unfold SF64add.
  destruct Hab as [Ha%is_nan_Prim2SF | Hb%is_nan_Prim2SF].
  - by rewrite Ha.
  - rewrite Hb. by destruct (Prim2SF a).
Qed.

(** A sum that takes in a NaN is NaN, whatever the order and the bracketing
    of the additions. *)
Lemma adds_nan (xs : list float) (s x : float) :
  adds 0%float PrimFloat.add xs s → x ∈ xs → is_nan x = true → is_nan s = true.
Proof.
  intros Hadds. revert x.
  induction Hadds as [|z|xs ys a b Ha IHa Hb IHb|xs ys a Hp Ha IH]; intros x Hx Hnan.
  - by apply elem_of_nil in Hx.
  - apply list_elem_of_singleton in Hx. by subst.
  - apply nan_add. apply elem_of_app in Hx as [Hx|Hx]; [left|right]; eauto.
  - apply (IH x); [by rewrite Hp|done].
Qed.

Lemma elem_of_select {A} (mask : list bool) (l : list A) i x :
  mask !! i = Some true → l !! i = Some x → x ∈ select mask l.
Proof.
  revert l i. induction mask as [|b mask IH]; intros [|z l] [|i] Hm Hl; simplify_eq/=.
  - left.
  - destruct b; [right|]; by eapply IH.
Qed.

(** A NaN in a selected spectrum makes the co-added pixel NaN: the sum is a
    plain [np.sum], so one missing flux value at pixel j of one selected row
    is enough to lose pixel j of the co-added spectrum. *)
Theorem coadd_nan_pixel (flux : matrix float) (color_cut : list bool)
    (i j : nat) (row : list float) (x : float) :
  wf_matrix flux → length color_cut = nrows flux →
  color_cut !! i = Some true → rows flux !! i = Some row →
  row !! j = Some x → is_nan x = true →
  ∃ spectrum s,
    coadd flux color_cut = Ok spectrum ∧
    spectrum !! j = Some s ∧ is_nan s = true.
Proof.
  intros Hwf Hlen Hi Hrow Hj Hnan. unfold coadd, color_cut_coadd.
  rewrite color_cut_flux_eq by done. simpl.
  assert (Hjlt : j < ncols flux).
  { rewrite <- (proj1 (Forall_forall _ _) Hwf row) by by eapply list_elem_of_lookup_2.
    by eapply lookup_lt_Some. }
  assert (Hsel : wf_matrix (Matrix (ncols flux) (select color_cut (rows flux))))
    by by apply Forall_select.
  destruct (np_sum_axis0_adds 0%float PrimFloat.add _ j Hsel Hjlt) as (s & Hs & Hadds).
  exists (np_sum_axis0 0%float PrimFloat.add
            (Matrix (ncols flux) (select color_cut (rows flux)))), s.
  split; [done|]. split; [done|].
  apply (adds_nan _ s x Hadds); [|done].
  simpl. unfold column_of. apply list_elem_of_fmap. exists row.
  split; [unfold at0; by rewrite Hj|by eapply elem_of_select].
Qed.

(** [coadd_nan_pixel] on three spectra, the last with a NaN at its first
    pixel. *)
Lemma coadd_nan_pixel_witness :
  ∃ spectrum s,
    coadd (Matrix 2 [[1; 2]; [3; 4]; [nan; 6]]%float) [true; false; true] = Ok spectrum ∧
    spectrum !! 0 = Some s ∧ is_nan s = true.
Proof.
  apply (coadd_nan_pixel (Matrix 2 [[1; 2]; [3; 4]; [nan; 6]]%float) [true; false; true]
           2 0 [nan; 6]%float nan); try reflexivity.
  unfold wf_matrix. simpl. repeat constructor.
Defined.

Lemma eqb_zero_Prim2SF (v : float) :
  (v =? 0)%float = true → ∃ s, Prim2SF v = S754_zero s.
Proof.
  rewrite FloatAxioms.eqb_spec. unfold SFeqb.
  change (Prim2SF 0) with (S754_zero false).
  destruct (Prim2SF v) as [s|s| |s m e]; simpl; try done.
  - by exists s.
  - by destruct s.
  - by destruct s.
Qed.

Lemma ltb_zero_Prim2SF (v : float) :
  (v <? 0)%float = true →
  Prim2SF v = S754_infinity true ∨ ∃ m e, Prim2SF v = S754_finite true m e.
Proof.
  rewrite FloatAxioms.ltb_spec. unfold SFltb.
  change (Prim2SF 0) with (S754_zero false).
  destruct (Prim2SF v) as [s|s| |s m e]; simpl; try done.
  - destruct s; [by left|done].
  - destruct s; [right; by exists m, e|done].
Qed.

(** The uncertainty [1/np.sqrt(ivar)] has one entry per pixel; at a bad
    pixel, where the inverse variance is zero, it is infinite, and at a
    negative inverse variance it is NaN; neither raises. *)
Theorem inv_sqrt_ivar_bad_pixels (ivar : list float) :
  length (inv_sqrt_ivar ivar) = length ivar ∧
  (∀ i v, ivar !! i = Some v → (v =? 0)%float = true →
     ∃ s, inv_sqrt_ivar ivar !! i = Some s ∧ is_infinity s = true) ∧
  (∀ i v, ivar !! i = Some v → (v <? 0)%float = true →
     ∃ s, inv_sqrt_ivar ivar !! i = Some s ∧ is_nan s = true).
Proof.
  unfold inv_sqrt_ivar. split; [apply length_fmap|]. split.
  - intros i v Hi Hv. rewrite list_lookup_fmap, Hi. simpl. eexists. split; [done|].
    destruct (eqb_zero_Prim2SF v Hv) as [s Hs].
    unfold is_infinity.
    rewrite FloatAxioms.eqb_spec, FloatAxioms.abs_spec, FloatAxioms.div_spec,
      FloatAxioms.sqrt_spec, Hs.
    change (Prim2SF 1) with (S754_finite false 4503599627370496 (-52)).
    by destruct s.
  - intros i v Hi Hv. rewrite list_lookup_fmap, Hi. simpl. eexists. split; [done|].
    apply is_nan_Prim2SF.
    rewrite FloatAxioms.div_spec, FloatAxioms.sqrt_spec.
    change (Prim2SF 1) with (S754_finite false 4503599627370496 (-52)).
    destruct (ltb_zero_Prim2SF v Hv) as [->|(m & e & ->)]; done.
Qed.

Example inv_sqrt_ivar_of_three :
  inv_sqrt_ivar [4; 0; 0.25]%float = [0.5; infinity; 2]%float.
Proof. vm_compute. reflexivity. Qed.

(** ** Errors of the colour cut (lines 263-305) *)

Lemma mapM_result_raise {A B} (f : A → result B) (l : list A) (e0 e : exn) :
  (∀ x e', f x = Raise e' → e' = e0) → mapM f l = Raise e → e = e0.
Proof.
  intros Hf. induction l as [|x l IH]; simpl; [done|].
  destruct (f x) as [z|e'] eqn:Hx; simpl.
  - destruct (mapM f l); simpl; [done|]. intros [= <-]. by apply IH.
  - intros [= <-]. by eapply Hf.
Qed.

Lemma getcol_raises {A} (a : matrix A) (k : nat) (e : exn) :
  getcol a k = Raise e → e = IndexError.
Proof.
  unfold getcol. case_decide; [|by intros [= <-]].
  apply mapM_result_raise. intros r e'. by destruct (r !! k); [|intros [= <-]].
Qed.

Lemma getcol_out_of_range {A} (a : matrix A) (k : nat) :
  ncols a ≤ k → getcol a k = Raise IndexError.
Proof. intros Hk. unfold getcol. rewrite decide_False by lia. done. Qed.

(** The colour cut raises the KeyError of PSFMAG on a table without that
    column, and an IndexError when the column has no second axis or fewer
    than four magnitudes per row; a column of exactly three magnitudes is
    enough for g-r but not for r-i. *)
Theorem color_cut_errors (photoPos : table) :
  (columns photoPos !! "PSFMAG" = None →
     g_r photoPos = Raise (KeyError "PSFMAG") ∧
     r_i photoPos = Raise (KeyError "PSFMAG") ∧
     color_cut photoPos = Raise (KeyError "PSFMAG")) ∧
  (∀ c, columns photoPos !! "PSFMAG" = Some c → (∀ m, c ≠ VecColumn m) →
     color_cut photoPos = Raise IndexError) ∧
  (∀ m, columns photoPos !! "PSFMAG" = Some (VecColumn m) → ncols m ≤ 3 →
     r_i photoPos = Raise IndexError ∧ color_cut photoPos = Raise IndexError) ∧
  (∀ m, columns photoPos !! "PSFMAG" = Some (VecColumn m) → wf_matrix m → ncols m = 3 →
     ∃ gr, g_r photoPos = Ok gr ∧ length gr = nrows m).
Proof.
  split; [|split; [|split]].
  - intros Hcol. unfold color_cut, g_r, r_i, psfmag, getitem. by rewrite Hcol.
  - intros c Hcol Hc. unfold color_cut, g_r, psfmag, getitem. rewrite Hcol. simpl.
    destruct c as [v|v|v|m]; try done. by destruct (Hc m).
  - intros m Hcol Hw.
    assert (Hp : ∀ k, psfmag photoPos k = getcol m k).
    { intros k. unfold psfmag, getitem. by rewrite Hcol. }
    assert (Hri : r_i photoPos = Raise IndexError).
    { unfold r_i. rewrite !Hp, (getcol_out_of_range m 3) by lia.
      destruct (getcol m 2) as [c|e] eqn:H2; simpl; [done|].
      by rewrite (getcol_raises _ _ _ H2). }
    split; [done|]. unfold color_cut. rewrite Hri.
    destruct (g_r photoPos) as [g|e] eqn:Hg; simpl; [done|].
    unfold g_r in Hg. rewrite !Hp in Hg.
    destruct (getcol m 1) as [c1|e1] eqn:H1; simpl in Hg.
    + destruct (getcol m 2) as [c2|e2] eqn:H2; simplify_eq/=.
      by rewrite (getcol_raises _ _ _ H2).
    + simplify_eq/=. by rewrite (getcol_raises _ _ _ H1).
  - intros m Hcol Hwf Hw.
    destruct (getcol_lookup m 1 Hwf) as (c1 & E1 & L1 & _); [lia|].
    destruct (getcol_lookup m 2 Hwf) as (c2 & E2 & L2 & _); [lia|].
    unfold g_r, psfmag, getitem. rewrite Hcol. simpl. rewrite E1, E2. simpl.
    eexists. split; [done|]. unfold vsub. rewrite length_zip_with. lia.
Qed.

(** ** Edge cases of the labels (line 397) *)

Lemma mapM_result_Ok_inv {A B} (f : A → result B) (l : list A) (k : list B) :
  mapM f l = Ok k → Forall2 (λ x z, f x = Ok z) l k.
Proof.
  revert k. induction l as [|x l IH]; intros k; simpl.
  - intros [= <-]. constructor.
  - destruct (f x) as [z|e] eqn:Hx; simpl; [|done].
    destruct (mapM f l) as [k'|e]; simpl; [|done].
    intros [= <-]. constructor; [done|]. by apply IH.
Qed.

(** On a table with no row the labels are the empty vector, even without a
    CLASS column; on a table with rows but no CLASS column the KeyError of
    CLASS is raised; and whenever labels are returned there is one per row
    and each is 0 or 1. *)
Theorem extract_labels_edges (positive : string) (specObj : table) :
  (table_len specObj = 0 → extract_labels positive specObj = Ok []) ∧
  (0 < table_len specObj → columns specObj !! "CLASS" = None →
     extract_labels positive specObj = Raise (KeyError "CLASS")) ∧
  (∀ labels, extract_labels positive specObj = Ok labels →
     length labels = table_len specObj ∧ Forall (λ n, n = 0 ∨ n = 1)%Z labels).
Proof.
  unfold extract_labels. split; [|split].
  - by intros ->.
  - intros Hlen Hcol. destruct (table_len specObj) as [|n]; [lia|]. simpl.
    unfold label_at, getitem. by rewrite Hcol.
  - intros labels Hok. apply mapM_result_Ok_inv in Hok.
    split; [by rewrite <- (Forall2_length _ _ _ Hok), length_seq|].
    eapply Forall2_Forall_r; [exact Hok|]. apply Forall_forall.
    intros i _ n Hn. unfold label_at in Hn.
    destruct (getitem specObj "CLASS"); simpl in Hn; [|done].
    destruct (column_item _ i) as [x|]; simpl in Hn; [|done].
    injection Hn as <-. destruct (item_eq_str x positive); auto.
Qed.

Lemma count_positive_labels (positive : string) (cls : list string) :
  length (filter (λ n, n = 1%Z)
            ((λ c, if bool_decide (c = positive) then 1 else 0)%Z <$> cls))
  = count_true (eq_mask positive cls).
Proof.
  induction cls as [|c cls IH]; [done|].
  change (eq_mask positive (c :: cls)) with (bool_decide (c = positive) :: eq_mask positive cls).
  rewrite count_true_cons, fmap_cons, filter_cons.
  destruct (bool_decide (c = positive)); case_decide; simpl; try done; lia.
Qed.

(** The number of positive labels in [y] is the count printed for the
    class STAR in the cell of lines 171-174, and the labels are 1 exactly on
    the mask [spec_class == 'STAR']. *)
Theorem labels_match_star_count (specObj : table) (cls : list string) :
  wf_table specObj → columns specObj !! "CLASS" = Some (StrColumn cls) →
  ∃ labels,
    y specObj = Ok labels ∧
    length (filter (λ n, n = 1%Z) labels) = count_true (eq_mask "STAR" cls) ∧
    ∀ i, labels !! i = Some 1%Z ↔ eq_mask "STAR" cls !! i = Some true.
Proof.
  intros Hwf Hcol. pose proof (Hwf _ _ Hcol) as Hlen. simpl in Hlen.
  unfold y. rewrite (extract_labels_eq "STAR" specObj cls) by done.
  eexists. split; [done|]. split; [apply count_positive_labels|].
  intros i. unfold eq_mask. rewrite !list_lookup_fmap.
  destruct (cls !! i) as [c|]; simpl; [|done].
  case_bool_decide; split; intros [=]; done.
Qed.

(** [labels_match_star_count] on a catalog of four sources. *)
Lemma labels_match_star_count_witness :
  ∃ labels,
    y (Table 4 {["CLASS" := StrColumn ["STAR"; "QSO"; "STAR"; "GALAXY"]]}) = Ok labels ∧
    length (filter (λ n, n = 1%Z) labels)
      = count_true (eq_mask "STAR" ["STAR"; "QSO"; "STAR"; "GALAXY"]) ∧
    ∀ i, labels !! i = Some 1%Z
         ↔ eq_mask "STAR" ["STAR"; "QSO"; "STAR"; "GALAXY"] !! i = Some true.
Proof.
  apply (labels_match_star_count
           (Table 4 {["CLASS" := StrColumn ["STAR"; "QSO"; "STAR"; "GALAXY"]]})
           ["STAR"; "QSO"; "STAR"; "GALAXY"]).
  - intros name c Hc. simpl in Hc. apply lookup_singleton_Some in Hc as [<- <-]. reflexivity.
  - reflexivity.
Defined.

(** ** The split for any bound (lines 419-437) *)

(** For every integer bound, also a negative one or one past the end, the
    slice up to the bound followed by the slice from the bound is the whole
    array, so the split of lines 419-437 loses and repeats no row whatever
    [t_size] is set to; a bound from 0 to the length keeps that many rows on
    the left, a negative bound leaves that many rows on the right, and a
    bound beyond either end leaves one side empty. *)
Theorem slices_partition {A : Type} (bound : Z) (l : list A) :
  slice_to bound l ++ slice_from bound l = l ∧
  length (slice_to bound l) + length (slice_from bound l) = length l ∧
  ((0 ≤ bound ≤ Z.of_nat (length l))%Z →
     Z.of_nat (length (slice_to bound l)) = bound) ∧
  ((Z.of_nat (length l) < bound)%Z →
     slice_to bound l = l ∧ slice_from bound l = []) ∧
  ((- Z.of_nat (length l) ≤ bound < 0)%Z →
     Z.of_nat (length (slice_from bound l)) = (- bound)%Z) ∧
  ((bound < - Z.of_nat (length l))%Z →
     slice_to bound l = [] ∧ slice_from bound l = l).
Proof.
  unfold slice_to, slice_from.
  assert (Hle : slice_bound (length l) bound ≤ length l).
  { unfold slice_bound. case_decide; lia. }
  split; [apply take_drop|]. split; [rewrite length_take, length_drop; lia|].
  split; [|split; [|split]].
  - intros Hb. rewrite length_take. unfold slice_bound.
    rewrite decide_False by lia. lia.
  - intros Hb. unfold slice_bound. rewrite decide_False by lia.
    split; [apply take_ge; lia|apply drop_ge; lia].
  - intros Hb. rewrite length_drop. unfold slice_bound.
    rewrite decide_True by lia. lia.
  - intros Hb. unfold slice_bound. rewrite decide_True by lia.
    replace (Z.to_nat (Z.of_nat (length l) + bound)) with 0 by lia. done.
Qed.

(** ** The cells up to the fit, run in order (lines 386-419) *)

(** Run in order in a session that holds the two catalogs and the imported
    [Column], the cells from [svm.SVC()] to the fit bind [svm], the labels
    [y], the features [X] (the PSFMAG column as it is) and [t_size] = 70000,
    hand the first 70000 rows of [X] and [y] to the fit, and leave [clf]
    fitted; every other name of the session is as before. *)
Theorem cells_before_predict_bindings {Model : Type}
    (svm_fit : column → column → result Model)
    (ns : gmap string (@value Model)) (col : @value Model)
    (specObj photoPos : table) (labels : list Z) (features : column) (model : Model) :
  ns !! "Column" = Some col →
  ns !! "specObj" = Some (VTable specObj) →
  ns !! "photoPos" = Some (VTable photoPos) →
  y specObj = Ok labels → X photoPos = Ok features →
  svm_fit (column_slice_to t_size features) (IntColumn (slice_to t_size labels)) = Ok model →
  cells_before_predict svm_fit ns
  = Ok (tt, <["clf" := VEstimator (Some model)]>
              (<["t_size" := VInt t_size]>
                 (<["X" := VColumn features]>
                    (<["y" := VColumn (IntColumn labels)]>
                       (<["clf" := VEstimator None]>
                          (<["svm" := VOpaque "sklearn.svm"]> ns)))))).
Proof.
  intros Hcol Hspec Hphoto Hy HX Hfit.
  unfold cells_before_predict, cell_svc, cell_labels_features, cell_t_size, cell_fit,
    load_slice_to.
  repeat (unfold mbind, py_bind, load, store, lift; simpl;
          rewrite ?lookup_insert_eq, ?lookup_insert_ne by done;
          rewrite ?Hcol, ?Hspec, ?Hphoto, ?Hy, ?HX; simpl).
  change (column_slice (λ A, slice_to t_size) features)
    with (column_slice_to t_size features).
  by rewrite Hfit.
Qed.

(** [cells_before_predict_bindings] on a session with two sources and a
    classifier that accepts any data. *)
Lemma cells_before_predict_bindings_witness :
  let specObj := Table 2 {["CLASS" := StrColumn ["STAR"; "QSO"]]} in
  let PSFMAG := VecColumn (Matrix 5
    [[19; 18.5; 18; 17.75; 17.5]; [19; 18.5; 18; 18; 17.5]]%float) in
  let photoPos := Table 2 {["PSFMAG" := PSFMAG]} in
  let ns : gmap string (@value unit) :=
    <["Column" := VOpaque "astropy.table.Column"]>
      (<["specObj" := VTable specObj]> {["photoPos" := VTable photoPos]}) in
  cells_before_predict (λ _ _, Ok tt) ns
  = Ok (tt, <["clf" := VEstimator (Some tt)]>
              (<["t_size" := VInt t_size]>
                 (<["X" := VColumn PSFMAG]>
                    (<["y" := VColumn (IntColumn [1; 0]%Z)]>
                       (<["clf" := VEstimator None]>
                          (<["svm" := VOpaque "sklearn.svm"]> ns)))))).
Proof.
  cbv zeta.
  apply (cells_before_predict_bindings (Model:=unit) (λ _ _, Ok tt) _
           (VOpaque "astropy.table.Column")
           (Table 2 {["CLASS" := StrColumn ["STAR"; "QSO"]]})
           (Table 2 {["PSFMAG" := VecColumn (Matrix 5
              [[19; 18.5; 18; 17.75; 17.5]; [19; 18.5; 18; 18; 17.5]]%float)]}));
    reflexivity.
Defined.

(** After the failed prediction the name [predict] is still unbound, so the
    comparison cell of line 437, run next, raises the NameError of
    [predict]: in every session without [predict] where numpy is imported,
    and in particular after the cells up to the fit have run there. *)
Theorem non_matching_raises_name_error {Model : Type}
    (svm_fit : column → column → result Model)
    (np_sum_ne : column → column → result Z)
    (ns : gmap string (@value Model)) (np : @value Model) :
  ns !! "predict" = None → ns !! "np" = Some np →
  cell_non_matching np_sum_ne ns = Raise (NameError "predict") ∧
  ∀ ns', cells_before_predict svm_fit ns = Ok (tt, ns') →
    ns' !! "predict" = None ∧
    cell_non_matching np_sum_ne ns' = Raise (NameError "predict").
Proof.
  assert (Hcell : ∀ (any : gmap string (@value Model)) v,
            any !! "predict" = None → any !! "np" = Some v →
            cell_non_matching np_sum_ne any = Raise (NameError "predict")).
  { intros any v Hp Hnp. unfold cell_non_matching.
    rewrite (py_bind_step (load "np") _ any v any) by (unfold load; by rewrite Hnp).
    apply py_bind_Raise. unfold load. by rewrite Hp. }
  intros Hp Hnp. split; [by eapply Hcell|].
  intros ns' Hcells.
  assert (Hfresh : ∀ name, name ∈ ["predict"; "np"] →
            name ∉ ["svm"; "clf"; "y"; "X"; "t_size"]).
  { intros name Hname Hin.
    repeat (apply elem_of_cons in Hname as [->|Hname];
            [repeat (apply elem_of_cons in Hin as [Hin|Hin]; [discriminate Hin|]);
             by apply elem_of_nil in Hin|]).
    by apply elem_of_nil in Hname. }
  assert (Hp' : ns' !! "predict" = None).
  { rewrite <- Hp. eapply (cells_before_predict_keep svm_fit "predict"); [|exact Hcells].
    apply Hfresh. left. }
  split; [done|]. apply (Hcell ns' np); [done|].
  rewrite <- Hnp. eapply (cells_before_predict_keep svm_fit "np"); [|exact Hcells].
  apply Hfresh. right. left.
Qed.

(** [non_matching_raises_name_error] on a session that holds the catalogs
    and the imports, where the cells up to the fit run to their end. *)
Lemma non_matching_raises_name_error_witness :
  let ns : gmap string (@value unit) :=
    <["Column" := VOpaque "astropy.table.Column"]>
      (<["np" := VOpaque "numpy"]>
         (<["specObj" := VTable (Table 2 {["CLASS" := StrColumn ["STAR"; "QSO"]]})]>
            {["photoPos" := VTable (Table 2 {["PSFMAG" := VecColumn (Matrix 5
                [[19; 18.5; 18; 17.75; 17.5]; [19; 18.5; 18; 18; 17.5]]%float)]})]})) in
  cell_non_matching (λ _ _, Ok 0%Z) ns = Raise (NameError "predict") ∧
  ∀ ns', cells_before_predict (λ _ _, Ok tt) ns = Ok (tt, ns') →
    ns' !! "predict" = None ∧
    cell_non_matching (λ _ _, Ok 0%Z) ns' = Raise (NameError "predict").
Proof.
  cbv zeta.
  apply (non_matching_raises_name_error (Model:=unit) (λ _ _, Ok tt) (λ _ _, Ok 0%Z)
           _ (VOpaque "numpy")); reflexivity.
Defined.
